(** * Translator-Bot: the helpers, the chunking engine and the /summary handler

    A shallow embedding of [src/bot.py].  Python [str] values are sequences
    of Unicode code points, so a string is a list of code points ([N]);
    [len], [str.strip], [str.split], [str.join] and [str.replace] are
    embedded as functions on such lists.  Python [int] is [Z]. *)

From Stdlib Require Import String Ascii.
From Stdlib Require Import List ZArith NArith Lia Bool.
Import ListNotations.

Local Open Scope Z_scope.

(** ** Python string primitives used by the bot *)

Module Py.

Definition char := N.
Definition str := list char.

(** An ASCII literal of the source, as a list of code points. *)
Definition lit (s : String.string) : str :=
  map Ascii.N_of_ascii (String.list_ascii_of_string s).

Definition LF : char := 10%N.
Definition SP : char := 32%N.
Definition DQUOTE : char := 34%N.
Definition AT : char := 64%N.
Definition LT : char := 60%N.
(** U+200B ZERO WIDTH SPACE, written with the escape u200b in the source. *)
Definition ZWSP : char := 8203%N.

(** [len(s)] *)
Definition len (s : str) : Z := Z.of_nat (length s).

(** The code points [str.isspace], [str.strip()] and [str.split()] treat as
    white space (CPython's [_PyUnicode_IsWhitespace]). *)
Definition isspace (c : char) : bool :=
  ((9 <=? c) && (c <=? 13) || (28 <=? c) && (c <=? 32) || (c =? 133)
   || (c =? 160) || (c =? 5760) || (8192 <=? c) && (c <=? 8202)
   || (c =? 8232) || (c =? 8233) || (c =? 8239) || (c =? 8287)
   || (c =? 12288))%N.

(** [s.lstrip()] *)
Fixpoint lstrip (s : str) : str :=
  match s with
  | [] => []
  | c :: t => if isspace c then lstrip t else s
  end.

(** [s.rstrip()]: a white-space character is kept only when a character that
    is kept follows it. *)
Fixpoint rstrip (s : str) : str :=
  match s with
  | [] => []
  | c :: t =>
      match rstrip t with
      | [] => if isspace c then [] else [c]
      | r => c :: r
      end
  end.

(** [s.strip()] *)
Definition strip (s : str) : str := rstrip (lstrip s).

(** [s.split()] with no separator: the maximal runs of characters that are
    not white space.  [cur] is the run being scanned, most recent character
    first. *)
Fixpoint split_from (cur : str) (s : str) : list str :=
  match s with
  | [] => match cur with [] => [] | _ => [rev cur] end
  | c :: t =>
      if isspace c
      then match cur with
           | [] => split_from [] t
           | _ => rev cur :: split_from [] t
           end
      else split_from (c :: cur) t
  end.

Definition split (s : str) : list str := split_from [] s.

(** [sep.join(l)] *)
Fixpoint join (sep : str) (l : list str) : str :=
  match l with
  | [] => []
  | x :: t =>
      match t with
      | [] => x
      | _ :: _ => x ++ sep ++ join sep t
      end
  end.

(** [s.split(sep)] for a one-character separator: the pieces between the
    occurrences of [sep]; the empty string gives one empty piece. *)
Fixpoint split_on (sep : char) (s : str) : list str :=
  match s with
  | [] => [[]]
  | c :: t =>
      if (c =? sep)%N then [] :: split_on sep t
      else match split_on sep t with
           | w :: ws => (c :: w) :: ws
           | [] => [[c]]
           end
  end.

Fixpoint starts_with (p s : str) : bool :=
  match p, s with
  | [], _ => true
  | _ :: _, [] => false
  | a :: p', c :: s' => (a =? c)%N && starts_with p' s'
  end.

(** [s.replace(old, new)]: the occurrences of [old] are found left to right
    and do not overlap.  [skip] counts the characters of a matched
    occurrence that are still to be passed over. *)
Fixpoint replace_from (old new : str) (skip : nat) (s : str) : str :=
  match s with
  | [] => []
  | c :: t =>
      match skip with
      | S k => replace_from old new k t
      | O =>
          if starts_with old s
          then new ++ replace_from old new (Nat.pred (length old)) t
          else c :: replace_from old new O t
      end
  end.

(** For an empty [old], Python puts [new] before every character and at the
    end. *)
Definition replace (s old new : str) : str :=
  match old with
  | [] => new ++ flat_map (fun c => c :: new) s
  | _ :: _ => replace_from old new O s
  end.

(** [bool(s)] for a string or a list: non-empty. *)
Definition truthy {A : Type} (l : list A) : bool :=
  match l with [] => false | _ :: _ => true end.

(** [x or EMPTY], with EMPTY the empty string, for [x] a string or
    [None]. *)
Definition or_empty (x : option str) : str :=
  match x with
  | Some s => if truthy s then s else []
  | None => []
  end.

(** [str(n)] for a non-negative integer: its decimal digits. *)
Fixpoint digits (d : Decimal.uint) : str :=
  match d with
  | Decimal.Nil => []
  | Decimal.D0 r => 48%N :: digits r
  | Decimal.D1 r => 49%N :: digits r
  | Decimal.D2 r => 50%N :: digits r
  | Decimal.D3 r => 51%N :: digits r
  | Decimal.D4 r => 52%N :: digits r
  | Decimal.D5 r => 53%N :: digits r
  | Decimal.D6 r => 54%N :: digits r
  | Decimal.D7 r => 55%N :: digits r
  | Decimal.D8 r => 56%N :: digits r
  | Decimal.D9 r => 57%N :: digits r
  end.

Definition str_of_nat (n : nat) : str := digits (Nat.to_uint n).

End Py.

Import Py.

(** ** The helpers of [src/bot.py] *)

(** [safe_name]: the empty name becomes ["Unknown"]; otherwise the two
    replacements are applied one after the other. *)
Definition safe_name (name : str) : str :=
  if negb (truthy name) then lit "Unknown"
  else
    let name := replace name [AT] [AT; ZWSP] in
    let name := replace name [LT; AT] [LT; AT; ZWSP] in
    name.

(** [clean_message_content]: the [or] with the empty string makes [None]
    the empty string. *)
Definition clean_message_content (content : option str) : str :=
  let content := strip (or_empty content) in
  let content := join [SP] (split content) in
  content.

(** ** The chunking engine *)

(** The three local variables of [chunk_text_blocks]. *)
Record chunker : Type := mkChunker {
  chunks : list str;
  current : list str;
  current_len : Z
}.

(** One iteration of the [for line in lines] loop. *)
Definition chunk_step (max_chars : Z) (st : chunker) (line : str) : chunker :=
  if (current_len st + len line + 1 >? max_chars) && truthy (current st)
  then {| chunks := chunks st ++ [join [LF] (current st)];
          current := [line];
          current_len := len line + 1 |}
  else {| chunks := chunks st;
          current := current st ++ [line];
          current_len := current_len st + len line + 1 |}.

Definition chunk_text_blocks (lines : list str) (max_chars : Z) : list str :=
  let st := fold_left (chunk_step max_chars) lines
                      {| chunks := []; current := []; current_len := 0 |} in
  if truthy (current st) then chunks st ++ [join [LF] (current st)]
  else chunks st.

(** ** Prompts *)

(** A triple-quoted template: its lines, joined by line feeds. *)
Definition text (lines : list str) : str := join [LF] lines.

(** [str(n)] padded with zeros to [width] digits, as [strftime] prints the
    fields of a date ([%Y] with four digits, the others with two). *)
Definition zero_pad (width : nat) (n : nat) : str :=
  let d := str_of_nat n in
  repeat 48%N (width - length d) ++ d.

Record datetime : Type := mkDatetime {
  year : nat; month : nat; day : nat; hour : nat; minute : nat
}.

(** [created_at.strftime("%Y-%m-%d %H:%M UTC")] *)
Definition strftime (t : datetime) : str :=
  zero_pad 4 (year t) ++ lit "-" ++ zero_pad 2 (month t) ++ lit "-"
  ++ zero_pad 2 (day t) ++ lit " " ++ zero_pad 2 (hour t) ++ lit ":"
  ++ zero_pad 2 (minute t) ++ lit " UTC".

Section Prompts.

(** The slang glossary is read from [slang.json], which is not part of the
    sources: [glossary] is its rendering in the prompt,
    [json.dumps(SLANG, ensure_ascii=False, indent=2) if SLANG else "{}"]. *)
Variable glossary : str.

Definition build_summary_prompt (formatted_chat : str) : str :=
  strip (text
    [ [];
      lit "You are summarizing the last 24 hours of a Discord channel. The content may include Hinglish + slang + funny spellings.";
      [];
      lit "Write a SHORT bullet-point summary.";
      lit "Requirements:";
      lit "- Use short bullets only (no long paragraphs).";
      lit "- When referring to members, use the plain text names shown in the chat lines.";
      lit "- Do NOT use @mentions or ping formats.";
      lit "- Capture key topics, decisions, and outcomes.";
      lit "- If there was a heated discussion/fight, mention which members were involved and what it was about, and what the outcome was.";
      lit "- Use this slang glossary when helpful:";
      glossary;
      [];
      lit "Chat (chronological):";
      formatted_chat;
      [];
      lit "Return ONLY bullets, each starting with " ++ [DQUOTE] ++ lit "- " ++ [DQUOTE] ++ lit ".";
      [] ]).

End Prompts.

(** The prompt of the map phase for chunk [i] of [total]. *)
Definition map_prompt (i total : nat) (ch : str) : str :=
  strip (text
    [ [];
      lit "Summarize this subset of Discord chat into SHORT bullet points.";
      lit "Return ONLY bullets starting with " ++ [DQUOTE] ++ lit "- " ++ [DQUOTE] ++ lit ".";
      lit "Chunk " ++ str_of_nat i ++ lit "/" ++ str_of_nat total ++ lit ":";
      [];
      ch;
      [] ]).

(** The prompt of the reduce phase. *)
Definition reduce_prompt (reduce_input : str) : str :=
  strip (text
    [ [];
      lit "Combine these partial summaries into ONE short bullet-point summary.";
      lit "Requirements:";
      lit "- Short bullets only";
      lit "- Mention member names as plain text (no pings)";
      lit "- Capture fights/disagreements and outcomes if present";
      lit "Return ONLY bullets starting with " ++ [DQUOTE] ++ lit "- " ++ [DQUOTE] ++ lit ".";
      [];
      lit "Partial summaries:";
      reduce_input;
      [] ]).

(** ** Messages and chat lines *)

Record author : Type := mkAuthor {
  bot : bool;
  (** [None]: the author object has no [display_name] attribute. *)
  display_name : option str;
  name : str
}.

Record message : Type := mkMessage {
  msg_author : author;
  content : str;
  created_at : datetime
}.

(** [getattr(msg.author, "display_name", msg.author.name)] *)
Definition author_display (a : author) : str :=
  match display_name a with
  | Some d => d
  | None => name a
  end.

(** The chat line appended for a message that is kept:
    [f"[{ts}] {author_name}: {content}"]. *)
Definition chat_line (msg : message) (content : str) : str :=
  let author_name := safe_name (author_display (msg_author msg)) in
  let ts := strftime (created_at msg) in
  lit "[" ++ ts ++ lit "] " ++ author_name ++ lit ": " ++ content.

(** One iteration of the [async for msg in channel.history(...)] loop. *)
Definition collect_step (messages : list str) (msg : message) : list str :=
  if bot (msg_author msg) then messages
  else
    let content := clean_message_content (Some (content msg)) in
    if negb (truthy content) then messages
    else messages ++ [chat_line msg content].

Definition collect (msgs : list message) : list str :=
  fold_left collect_step msgs [].

(** ** What a run of the handler does *)

(** What a call of the generation backend came to: the text
    [gemini_generate] returned, or the exception it raised ([str(e)]). *)
Inductive outcome : Type :=
  | Returned (text : str)
  | Raised (e : str).

(** The visible actions of the [/summary] handler, in the order they
    happen: [interaction.response.defer], [interaction.followup.send] and
    [gemini_generate]. *)
Inductive event : Type :=
  | Defer
  | Send (text : str)
  | Generate (prompt : str) (out : outcome).

Definition trace := list event.

Definition is_generate (e : event) : bool :=
  match e with Generate _ _ => true | _ => false end.

Definition is_send (e : event) : bool :=
  match e with Send _ => true | _ => false end.

(** The calls of the Generation Client in a trace, and the replies sent. *)
Definition generate_calls (tr : trace) : list event := filter is_generate tr.
Definition replies (tr : trace) : list event := filter is_send tr.

(** The prompts the Generation Client was called on, in call order. *)
Fixpoint prompts (tr : trace) : list str :=
  match tr with
  | [] => []
  | Generate p _ :: t => p :: prompts t
  | _ :: t => prompts t
  end.

(** What [client_ai.models.generate_content] does on a call: it returns a
    response whose [text] is a string or [None] (or absent), or raises. *)
Inductive response : Type :=
  | Response (text : option str)
  | Failure (e : str).

(** The backend: its answer to a prompt may depend on how many calls were
    made before. *)
Definition backend := nat -> str -> response.

(** A computation that appends to the trace and returns or raises. *)
Inductive result (A : Type) : Type :=
  | Ok (a : A)
  | Exn (e : str).
Arguments Ok {A} a.
Arguments Exn {A} e.

Definition Run (A : Type) : Type := trace -> result A * trace.

Definition ret {A : Type} (a : A) : Run A := fun tr => (Ok a, tr).

Definition bind {A B : Type} (m : Run A) (k : A -> Run B) : Run B :=
  fun tr =>
    match m tr with
    | (Ok a, tr') => k a tr'
    | (Exn e, tr') => (Exn e, tr')
    end.

(** [try: body  except Exception as e: handler(e)] *)
Definition try_except (body : Run unit) (handler : str -> Run unit) : Run unit :=
  fun tr =>
    match body tr with
    | (Ok a, tr') => (Ok a, tr')
    | (Exn e, tr') => handler e tr'
    end.

Declare Scope run_scope.
Delimit Scope run_scope with run.
Notation "x <- m ;; k" := (bind m (fun x => k))
  (at level 61, m at next level, right associativity) : run_scope.
Notation "m ;; k" := (bind m (fun _ => k))
  (at level 61, right associativity) : run_scope.

Local Open Scope run_scope.

Definition defer : Run unit := fun tr => (Ok tt, tr ++ [Defer]).

(** [await interaction.followup.send(text, allowed_mentions=NO_MENTIONS)];
    the platform is taken to accept the message. *)
Definition send (text : str) : Run unit := fun tr => (Ok tt, tr ++ [Send text]).

(** [isinstance(channel, discord.TextChannel)] *)
Inductive channel_kind : Type := TextChannel | OtherChannel.

(** How the iteration over [channel.history(...)] ends. *)
Inductive history_end : Type :=
  | Exhausted
  | RaisedForbidden
  | RaisedException (e : str).

(** The messages [channel.history(limit=None, after=since,
    oldest_first=True)] yields, and how the iteration ends. *)
Record history : Type := mkHistory {
  yielded : list message;
  ending : history_end
}.

Section Handler.

Variable glossary : str.
Variable generate_content : backend.

(** [gemini_generate]: the [text] of the response, the empty string when
    it is absent or [None], stripped. *)
Definition gemini_generate (text_prompt : str) : Run str :=
  fun tr =>
    match generate_content (length (generate_calls tr)) text_prompt with
    | Response t =>
        let out := strip (or_empty t) in
        (Ok out, tr ++ [Generate text_prompt (Returned out)])
    | Failure e => (Exn e, tr ++ [Generate text_prompt (Raised e)])
    end.

(** [final if final else "Could not generate summary."] *)
Definition or_fallback (final : str) : str :=
  if truthy final then final else lit "Could not generate summary.".

(** The loop [for i, ch in enumerate(chunks, start=1)] from index [i] on,
    with the partial summaries collected so far. *)
Fixpoint map_phase (total i : nat) (todo : list str) (partial_summaries : list str)
  : Run (list str) :=
  match todo with
  | [] => ret partial_summaries
  | ch :: rest =>
      partial <- gemini_generate (map_prompt i total ch) ;;
      map_phase total (S i) rest (partial_summaries ++ [partial])
  end.

(** The [try] block at the end of [summary]: one call for one chunk, the
    map and reduce phases otherwise. *)
Definition summarize (chunks : list str) : Run unit :=
  try_except
    (if (length chunks =? 1)%nat
     then
       let prompt := build_summary_prompt glossary (nth 0 chunks []) in
       final <- gemini_generate prompt ;;
       send (or_fallback final)
     else
       partial_summaries <- map_phase (length chunks) 1 chunks [] ;;
       let reduce_input := join [LF] partial_summaries in
       final <- gemini_generate (reduce_prompt reduce_input) ;;
       send (or_fallback final))
    (fun e => send (lit "Error generating summary: " ++ e)).

(** The [/summary] command. *)
Definition summary (channel : channel_kind) (h : history) : Run unit :=
  defer ;;
  match channel with
  | OtherChannel => send (lit "This command can only be used in a text channel.")
  | TextChannel =>
      let messages := collect (yielded h) in
      match ending h with
      | RaisedForbidden =>
          send (lit "I don't have permission to read message history in this channel.")
      | RaisedException e => send (lit "Error while fetching messages: " ++ e)
      | Exhausted =>
          if negb (truthy messages)
          then send (lit "No messages found in the past 24 hours.")
          else
            let chunks := chunk_text_blocks messages 12000 in
            summarize chunks
      end
  end.

(** The trace of a whole run of the command. *)
Definition run_summary (channel : channel_kind) (h : history) : trace :=
  snd (summary channel h []).

End Handler.

(** ** The translation prompt *)

Section TranslationPrompt.

(** The rendering of the slang glossary, as for [build_summary_prompt]. *)
Variable glossary : str.

Definition build_translation_prompt (text_in target_language : str) : str :=
  strip (text
    [ [];
      lit "You are a highly accurate translator for informal chat. The input may be Hinglish (Hindi written in Latin letters mixed with English),";
      lit "with slang, abbreviations, and funny spellings. Translate into: "
        ++ target_language ++ lit ".";
      [];
      lit "Rules:";
      lit "- Preserve meaning, tone, and intent.";
      lit "- If the text is already in the target language, still rewrite it cleanly in the target language.";
      lit "- Expand/interpret Hinglish and phonetic Hindi correctly.";
      lit "- Use this slang glossary when helpful:";
      glossary;
      [];
      lit "Return ONLY the translated text. No extra commentary.";
      [];
      lit "Text:";
      text_in;
      [] ]).

End TranslationPrompt.

(** ** Reactions *)

(** [SUPPORTED_FLAGS]: the flag emoji (two regional indicator symbols each)
    of Great Britain, the United States, India and Germany. *)
Definition SUPPORTED_FLAGS : list (str * str) :=
  [ ([127468; 127463]%N, lit "English");
    ([127482; 127480]%N, lit "English");
    ([127470; 127475]%N, lit "Hindi (Devanagari script)");
    ([127465; 127466]%N, lit "German") ].

Definition str_eqb (a b : str) : bool :=
  if list_eq_dec N.eq_dec a b then true else false.

(** [d[k]] for a dictionary written as a literal with distinct keys;
    [None] when [k not in d]. *)
Fixpoint dict_get (d : list (str * str)) (k : str) : option str :=
  match d with
  | [] => None
  | (k', v) :: rest => if str_eqb k k' then Some v else dict_get rest k
  end.

(** What a fetch from the platform gives: the object, or an exception. *)
Inductive fetched (A : Type) : Type :=
  | Fetched (a : A)
  | FetchFailed (e : str).
Arguments Fetched {A} a.
Arguments FetchFailed {A} e.

(** The class of a channel, as far as [isinstance] looks at it. *)
Inductive channel_class : Type := IsTextChannel | IsThread | IsOtherChannel.

(** What the handler of a reaction reads from the platform. *)
Record reaction : Type := mkReaction {
  (** [client.user]: [None] until the client is logged in, then its id. *)
  client_user : option Z;
  (** [payload.user_id] and [str(payload.emoji)] *)
  payload_user_id : Z;
  payload_emoji : str;
  (** [client.get_channel(payload.channel_id)] *)
  cached_channel : option channel_class;
  (** [client.fetch_channel(payload.channel_id)], asked for only when the
      channel is not cached *)
  fetched_channel : fetched channel_class;
  (** [channel.fetch_message(payload.message_id)] *)
  fetched_message : fetched message;
  (** [msg.reply(...)]: [None] when the reply goes through, the exception
      when it raises *)
  reply_failure : option str
}.

(** [await msg.reply(text, mention_author=False,
    allowed_mentions=NO_MENTIONS)]: a reply that goes through is recorded as
    a [Send] event. *)
Definition msg_reply (failure : option str) (text_out : str) : Run unit :=
  fun tr =>
    match failure with
    | None => (Ok tt, tr ++ [Send text_out])
    | Some e => (Exn e, tr)
    end.

Section Reactions.

Variable glossary : str.
Variable generate_content : backend.

(** [on_raw_reaction_add]; every [return] is [ret tt], and both [except]
    clauses of the last [try] return. *)
Definition on_raw_reaction_add (r : reaction) : Run unit :=
  match client_user r with
  | None => ret tt
  | Some client_id =>
      if payload_user_id r =? client_id then ret tt
      else
        match dict_get SUPPORTED_FLAGS (payload_emoji r) with
        | None => ret tt
        | Some target_language =>
            let channel :=
              match cached_channel r with
              | Some c => Fetched c
              | None => fetched_channel r
              end in
            match channel with
            | FetchFailed _ => ret tt
            | Fetched IsOtherChannel => ret tt
            | Fetched _ =>
                match fetched_message r with
                | FetchFailed _ => ret tt
                | Fetched msg =>
                    if bot (msg_author msg) then ret tt
                    else
                      let text_in := clean_message_content (Some (content msg)) in
                      if negb (truthy text_in) then ret tt
                      else
                        try_except
                          (let prompt :=
                             build_translation_prompt glossary text_in
                                                      target_language in
                           translated <- gemini_generate generate_content prompt ;;
                           if negb (truthy translated) then ret tt
                           else msg_reply (reply_failure r) translated)
                          (fun _ => ret tt)
                end
            end
        end
  end.

Definition run_reaction (r : reaction) : result unit * trace :=
  on_raw_reaction_add r [].

End Reactions.

(** ** Start-up configuration *)

Record config : Type := mkConfig {
  DISCORD_TOKEN : str;
  GEMINI_API_KEY : str;
  GEMINI_MODEL : str
}.

(** [os.getenv(key, default)] in the environment [env]. *)
Definition getenv (env : str -> option str) (key default : str) : str :=
  match env key with
  | Some v => v
  | None => default
  end.

(** The module-level code that reads the environment: the three values
    are read and stripped, then the two tokens are checked in turn; a
    missing one raises [RuntimeError]. *)
Definition load_config (env : str -> option str) : result config :=
  let discord_token := strip (getenv env (lit "DISCORD_TOKEN") []) in
  let gemini_api_key := strip (getenv env (lit "GEMINI_API_KEY") []) in
  let gemini_model :=
    strip (getenv env (lit "GEMINI_MODEL") (lit "gemini-2.5-flash-lite")) in
  if negb (truthy discord_token) then Exn (lit "Missing DISCORD_TOKEN in .env")
  else if negb (truthy gemini_api_key)
       then Exn (lit "Missing GEMINI_API_KEY in .env")
       else Ok {| DISCORD_TOKEN := discord_token;
                  GEMINI_API_KEY := gemini_api_key;
                  GEMINI_MODEL := gemini_model |}.

(** ** Vocabulary of the properties *)

(** The value [current_len] tracks: every buffered line and one separator
    for each. *)
Definition lines_len (g : list str) : Z :=
  fold_right (fun l acc => len l + 1 + acc) 0 g.

(** A closed chunk holds at least one line, and it fits the budget unless
    it is a single line longer than the budget. *)
Definition good_group (M : Z) (g : list str) : Prop :=
  g <> [] /\ (len (join [LF] g) <= M \/ exists l, g = [l] /\ M < len l).

(** What holds of the loop state after the lines [seen] have been read:
    [groups] are the line groups of the chunks closed so far. *)
Record chunk_inv (M : Z) (seen : list str) (st : chunker)
       (groups : list (list str)) : Prop := mkChunkInv {
  inv_chunks : chunks st = map (join [LF]) groups;
  inv_seen : concat groups ++ current st = seen;
  inv_len : current_len st = lines_len (current st);
  inv_groups : Forall (good_group M) groups;
  inv_current : current st = [] \/ current_len st <= M \/ exists l, current st = [l]
}.

(** Every [@] of [s] is immediately followed by the zero-width space. *)
Fixpoint at_guarded (s : str) : bool :=
  match s with
  | [] => true
  | c :: t =>
      (if (c =? AT)%N
       then match t with
            | z :: _ => (z =? ZWSP)%N
            | [] => false
            end
       else true)
      && at_guarded t
  end.

(** The second pass: [name.replace("<@", "<@\u200b")]. *)
Definition second_pass (s : str) : str := replace s [LT; AT] [LT; AT; ZWSP].

Definition nonspace (w : str) : Prop := Forall (fun c => isspace c = false) w.

(** A word: a non-empty run of characters that are not white space. *)
Definition word (w : str) : Prop := w <> [] /\ nonspace w.

(** Every white-space character of [s] is a space, and a character that is
    not white space follows it. *)
Fixpoint tidy (s : str) : bool :=
  match s with
  | [] => true
  | c :: t =>
      (if isspace c
       then (c =? SP)%N
            && match t with d :: _ => negb (isspace d) | [] => false end
       else true)
      && tidy t
  end.

(** A join of words is empty or starts with a character that is not white
    space. *)
Definition starts_clean (s : str) : bool :=
  match s with
  | [] => true
  | c :: _ => negb (isspace c)
  end.

(** The reply that follows the last call of the backend. *)
Definition reply_for (out : outcome) : str :=
  match out with
  | Returned final => or_fallback final
  | Raised e => lit "Error generating summary: " ++ e
  end.

(** The events of map-phase calls that returned: chunk [i], [i+1], ... of
    [total], with the partial summaries they gave. *)
Fixpoint map_calls (total i : nat) (todo outs : list str) : trace :=
  match todo, outs with
  | ch :: todo', o :: outs' =>
      Generate (map_prompt i total ch) (Returned o)
      :: map_calls total (S i) todo' outs'
  | _, _ => []
  end.

(** The backend answers every call. *)
Definition never_raises (generate_content : backend) : Prop :=
  forall i p, exists t, generate_content i p = Response t.

(** The outcome of the last call of the backend in a trace, and the events
    after it. *)
Fixpoint after_last_generate (tr : trace) : option (outcome * trace) :=
  match tr with
  | [] => None
  | e :: t =>
      match after_last_generate t with
      | Some r => Some r
      | None =>
          match e with
          | Generate _ out => Some (out, t)
          | _ => None
          end
      end
  end.

(** Two messages of 7000 characters each: their chat lines do not fit one
    chunk of 12000 characters. *)
Definition two_long_messages : history :=
  mkHistory
    [mkMessage (mkAuthor false (Some (lit "ann")) (lit "ann"))
               (repeat 97%N (70 * 100)) (mkDatetime 2024 1 2 3 4);
     mkMessage (mkAuthor false (Some (lit "bob")) (lit "bob"))
               (repeat 98%N (70 * 100)) (mkDatetime 2024 1 2 3 5)]
    Exhausted.

Definition one_short_message : history :=
  mkHistory
    [mkMessage (mkAuthor false (Some (lit "ann")) (lit "ann"))
               (lit "hello") (mkDatetime 2024 1 2 3 4)]
    Exhausted.

(** A backend that answers every prompt with one bullet, and one that
    answers with no text. *)
Definition bullet_backend : backend := fun _ _ => Response (Some (lit "- ok")).
Definition silent_backend : backend := fun _ _ => Response None.

(** The line groups the loop of [chunk_text_blocks] forms from the buffered
    lines [cur] and the lines [rest] still to be read: the chunks are their
    joins. *)
Fixpoint groups_from (M : Z) (cur rest : list str) : list (list str) :=
  match rest with
  | [] => if truthy cur then [cur] else []
  | line :: rest' =>
      if (lines_len cur + len line + 1 >? M) && truthy cur
      then cur :: groups_from M [line] rest'
      else groups_from M (cur ++ [line]) rest'
  end.

Definition chunk_groups (lines : list str) (M : Z) : list (list str) :=
  groups_from M [] lines.

(** Each group was closed only because the first line of the next group
    did not fit: a group is followed by a line [l] with
    [lines_len g + len l + 1 > M]. *)
Inductive greedy (M : Z) : list (list str) -> Prop :=
  | greedy_nil : greedy M []
  | greedy_one (g : list str) : greedy M [g]
  | greedy_cons (g : list str) (l : str) (g' : list str)
                (more : list (list str)) :
      M < lines_len g + len l + 1 ->
      greedy M ((l :: g') :: more) ->
      greedy M (g :: (l :: g') :: more).

(** The value [chunk_text_blocks] returns from a loop state. *)
Definition finish (st : chunker) : list str :=
  if truthy (current st) then chunks st ++ [join [LF] (current st)]
  else chunks st.

(** One pass from left to right that writes what the two replacements of
    [safe_name] write: a zero-width space after every [@], and a second one
    when the [@] comes right after a [<].  [after_lt] tells whether the
    previous character was [<]. *)
Fixpoint guard_from (after_lt : bool) (s : str) : str :=
  match s with
  | [] => []
  | c :: t =>
      if (c =? AT)%N
      then (if after_lt then [AT; ZWSP; ZWSP] else [AT; ZWSP])
           ++ guard_from false t
      else c :: guard_from (c =? LT)%N t
  end.

(** [s] without its zero-width spaces. *)
Definition without_zwsp (s : str) : str :=
  filter (fun c => negb (c =? ZWSP)%N) s.

(** [s] ends with a character that is not white space. *)
Definition ends_clean (s : str) : Prop :=
  exists pre d, s = pre ++ [d] /\ isspace d = false.

(** The fixed part of a map-phase prompt, up to and with the empty line
    before the chunk. *)
Definition map_prompt_head (i total : nat) : str :=
  lit "Summarize this subset of Discord chat into SHORT bullet points."
  ++ [LF]
  ++ lit "Return ONLY bullets starting with " ++ [DQUOTE] ++ lit "- "
  ++ [DQUOTE] ++ lit "." ++ [LF]
  ++ lit "Chunk " ++ str_of_nat i ++ lit "/" ++ str_of_nat total ++ lit ":"
  ++ [LF; LF].

(** The messages the [/summary] loop keeps: not written by a bot, and with
    a normalized content that is not empty. *)
Definition kept (msg : message) : bool :=
  negb (bot (msg_author msg))
  && truthy (clean_message_content (Some (content msg))).

(** The channel the reaction handler works with: the cached one, or else
    the fetched one. *)
Definition resolved_channel (r : reaction) : fetched channel_class :=
  match cached_channel r with
  | Some c => Fetched c
  | None => fetched_channel r
  end.

(** What makes the reaction handler go as far as the backend: the client
    is logged in, the reaction is not its own, the emoji is one of the
    flags, the channel is found and is a text channel or a thread, the
    message is found, its author is not a bot and its normalized content is
    not empty. *)
Definition translatable (r : reaction) (target_language : str) (msg : message)
  : Prop :=
  exists client_id c,
    client_user r = Some client_id /\
    payload_user_id r <> client_id /\
    dict_get SUPPORTED_FLAGS (payload_emoji r) = Some target_language /\
    resolved_channel r = Fetched c /\ c <> IsOtherChannel /\
    fetched_message r = Fetched msg /\
    bot (msg_author msg) = false /\
    clean_message_content (Some (content msg)) <> [].

(** The events after the call of the backend in the reaction handler: the
    reply, when the call returned a text that is not empty and the reply
    went through. *)
Definition reaction_reply (out : outcome) (failure : option str) : trace :=
  match out, failure with
  | Returned (c :: t), None => [Send (c :: t)]
  | _, _ => []
  end.

(** A sample reaction: the German flag on a message of a member, in a
    cached text channel. *)
Definition german_flag_reaction : reaction :=
  {| client_user := Some 1;
     payload_user_id := 2;
     payload_emoji := [127465; 127466]%N;
     cached_channel := Some IsTextChannel;
     fetched_channel := FetchFailed [];
     fetched_message :=
       Fetched (mkMessage (mkAuthor false (Some (lit "ann")) (lit "ann"))
                          (lit "  kya   haal hai ") (mkDatetime 2024 1 2 3 4));
     reply_failure := None |}.

(** An environment with the two tokens and a blank model name. *)
Definition sample_env (key : str) : option str :=
  if str_eqb key (lit "DISCORD_TOKEN") then Some (lit " abc ")
  else if str_eqb key (lit "GEMINI_API_KEY") then Some (lit "xyz")
  else if str_eqb key (lit "GEMINI_MODEL") then Some (lit "  ")
  else None.

(** * Properties *)

(** ** The chunking engine *)

Lemma len_app (a b : str) : len (a ++ b) = len a + len b.
Proof. unfold len. rewrite length_app. lia. Qed.

Lemma lines_len_app (g h : list str) :
  lines_len (g ++ h) = lines_len g + lines_len h.
Proof. induction g as [|l g IH]; simpl; lia. Qed.

Lemma len_join (g : list str) :
  g <> [] -> len (join [LF] g) = lines_len g - 1.
Proof.
  induction g as [|l g IH]; [congruence|]. intros _.
  destruct g as [|l' g].
  - simpl. lia.
  - change (join [LF] (l :: l' :: g)) with (l ++ [LF] ++ join [LF] (l' :: g)).
    rewrite !len_app, IH by discriminate.
    change (lines_len (l :: l' :: g)) with (len l + 1 + lines_len (l' :: g)).
    change (len [LF]) with 1. lia.
Qed.

Lemma truthy_true {A : Type} (l : list A) : truthy l = true <-> l <> [].
Proof. destruct l; simpl; split; congruence. Qed.

Lemma truthy_false {A : Type} (l : list A) : truthy l = false <-> l = [].
Proof. destruct l; simpl; split; congruence. Qed.

Lemma chunk_inv_init (M : Z) :
  chunk_inv M [] {| chunks := []; current := []; current_len := 0 |} [].
Proof. constructor; simpl; auto. Qed.

(** A buffer that satisfies the invariant closes into a good group. *)
Lemma chunk_inv_close (M : Z) (seen : list str) (st : chunker)
      (groups : list (list str)) :
  chunk_inv M seen st groups -> current st <> [] -> good_group M (current st).
Proof.
  intros [_ _ Hlen _ Hcur] Hne. split; [exact Hne|].
  destruct Hcur as [He | [Hle | [l Hl]]].
  - contradiction.
  - left. rewrite len_join by exact Hne. lia.
  - rewrite Hl. simpl. destruct (Z_le_gt_dec (len l) M).
    + left; assumption.
    + right. exists l. split; [reflexivity | lia].
Qed.

Lemma chunk_inv_step (M : Z) (seen : list str) (st : chunker)
      (groups : list (list str)) (line : str) :
  chunk_inv M seen st groups ->
  exists groups', chunk_inv M (seen ++ [line]) (chunk_step M st line) groups'.
Proof.
  intros Hinv. pose proof Hinv as [Hch Hseen Hlen Hgs Hcur].
  unfold chunk_step.
  destruct (current_len st + len line + 1 >? M) eqn:Hgt;
    destruct (truthy (current st)) eqn:Htr; simpl.
  - (* the buffer is closed and the line starts the next one *)
    apply truthy_true in Htr.
    exists (groups ++ [current st]). constructor; simpl.
    + rewrite Hch, map_app. reflexivity.
    + rewrite concat_app. simpl. rewrite app_nil_r, Hseen. reflexivity.
    + lia.
    + apply Forall_app. split; [assumption|].
      constructor; [|constructor]. eapply chunk_inv_close; eassumption.
    + right; right. exists line. reflexivity.
  - (* over budget, but the buffer is empty: the line is taken anyway *)
    apply truthy_false in Htr.
    exists groups. constructor; simpl; auto.
    + rewrite <- Hseen, Htr, app_assoc. reflexivity.
    + rewrite Hlen, lines_len_app. simpl. lia.
    + right; right. rewrite Htr. exists line. reflexivity.
  - exists groups. constructor; simpl; auto.
    + rewrite <- Hseen, app_assoc. reflexivity.
    + rewrite Hlen, lines_len_app. simpl. lia.
    + right; left. rewrite Z.gtb_ltb in Hgt. apply Z.ltb_ge in Hgt. lia.
  - exists groups. constructor; simpl; auto.
    + rewrite <- Hseen, app_assoc. reflexivity.
    + rewrite Hlen, lines_len_app. simpl. lia.
    + right; left. rewrite Z.gtb_ltb in Hgt. apply Z.ltb_ge in Hgt. lia.
Qed.

Lemma chunk_inv_loop (M : Z) (lines seen : list str) (st : chunker)
      (groups : list (list str)) :
  chunk_inv M seen st groups ->
  exists groups',
    chunk_inv M (seen ++ lines) (fold_left (chunk_step M) lines st) groups'.
Proof.
  revert seen st groups. induction lines as [|line lines IH]; intros seen st groups Hinv.
  - exists groups. rewrite app_nil_r. exact Hinv.
  - destruct (chunk_inv_step M seen st groups line Hinv) as [g1 H1].
    destruct (IH _ _ _ H1) as [g2 H2].
    exists g2. simpl. rewrite <- app_assoc in H2. exact H2.
Qed.

(** The chunks are the joins of consecutive, non-empty groups of the input
    lines, each within the budget or a single oversized line. *)
Lemma chunk_text_blocks_groups (lines : list str) (M : Z) :
  exists groups,
    concat groups = lines /\
    chunk_text_blocks lines M = map (join [LF]) groups /\
    Forall (good_group M) groups.
Proof.
  destruct (chunk_inv_loop M lines [] _ [] (chunk_inv_init M)) as [groups Hinv].
  simpl in Hinv. unfold chunk_text_blocks.
  set (st := fold_left (chunk_step M) lines _) in *.
  pose proof Hinv as [Hch Hseen Hlen Hgs Hcur].
  destruct (truthy (current st)) eqn:Htr.
  - apply truthy_true in Htr. exists (groups ++ [current st]). repeat split.
    + rewrite concat_app. simpl. rewrite app_nil_r. exact Hseen.
    + rewrite Hch, map_app. reflexivity.
    + apply Forall_app. split; [assumption|].
      constructor; [|constructor]. eapply chunk_inv_close; eassumption.
  - apply truthy_false in Htr. exists groups. repeat split; auto.
    rewrite <- Hseen, Htr, app_nil_r. reflexivity.
Qed.

(** C1.  For a positive budget [M], the chunks are the joins of consecutive
    groups of the input lines, and every chunk either has length at most
    [M] or is a single line longer than [M], emitted alone and whole. *)
Theorem chunk_fits_or_single_long_line (lines : list str) (M : Z) :
  0 < M ->
  exists groups,
    concat groups = lines /\
    chunk_text_blocks lines M = map (join [LF]) groups /\
    Forall (fun g => len (join [LF] g) <= M \/ exists l, g = [l] /\ M < len l)
           groups.
Proof.
  intros _. destruct (chunk_text_blocks_groups lines M) as (groups & Hc & Hj & Hg).
  exists groups. repeat split; auto.
  eapply Forall_impl; [|exact Hg]. intros g [_ H]. exact H.
Qed.

Lemma chunk_fits_or_single_long_line_witness :
  0 < 6 /\
  exists groups,
    concat groups = [lit "ab"; lit "cd"; lit "efghijkl"; lit "x"] /\
    chunk_text_blocks [lit "ab"; lit "cd"; lit "efghijkl"; lit "x"] 6
      = map (join [LF]) groups /\
    Forall (fun g => len (join [LF] g) <= 6 \/ exists l, g = [l] /\ 6 < len l)
           groups.
Proof.
  split; [lia|].
  apply (chunk_fits_or_single_long_line
           [lit "ab"; lit "cd"; lit "efghijkl"; lit "x"] 6); lia.
Defined.

(** C6.  An empty list of lines gives no chunk at all, whatever the
    budget. *)
Theorem chunk_text_blocks_nil (M : Z) : chunk_text_blocks [] M = [].
Proof. reflexivity. Qed.

(** C7.  Three lines of 5000 characters each and a budget of 12000 give two
    chunks: the first two lines joined, then the third line alone. *)
Theorem chunk_three_lines_of_5000 (line1 line2 line3 : str) :
  len line1 = 5000 -> len line2 = 5000 -> len line3 = 5000 ->
  chunk_text_blocks [line1; line2; line3] 12000
    = [join [LF] [line1; line2]; join [LF] [line3]].
Proof.
  intros H1 H2 H3. unfold chunk_text_blocks. cbn [fold_left].
  assert (E1 : chunk_step 12000
                 {| chunks := []; current := []; current_len := 0 |} line1
               = {| chunks := []; current := [line1]; current_len := 5001 |}).
  { unfold chunk_step. cbn [current_len current chunks]. rewrite H1. reflexivity. }
  rewrite E1.
  assert (E2 : chunk_step 12000
                 {| chunks := []; current := [line1]; current_len := 5001 |} line2
               = {| chunks := []; current := [line1; line2]; current_len := 10002 |}).
  { unfold chunk_step. cbn [current_len current chunks]. rewrite H2. reflexivity. }
  rewrite E2.
  assert (E3 : chunk_step 12000
                 {| chunks := []; current := [line1; line2]; current_len := 10002 |}
                 line3
               = {| chunks := [join [LF] [line1; line2]]; current := [line3];
                    current_len := 5001 |}).
  { unfold chunk_step. cbn [current_len current chunks]. rewrite H3. reflexivity. }
  rewrite E3. reflexivity.
Qed.

Lemma chunk_three_lines_of_5000_witness :
  len (repeat 97%N 5000) = 5000 /\
  chunk_text_blocks [repeat 97%N 5000; repeat 98%N 5000; repeat 99%N 5000] 12000
    = [join [LF] [repeat 97%N 5000; repeat 98%N 5000];
       join [LF] [repeat 99%N 5000]].
Proof.
  split; [vm_compute; reflexivity|].
  apply (chunk_three_lines_of_5000
           (repeat 97%N 5000) (repeat 98%N 5000) (repeat 99%N 5000));
    vm_compute; reflexivity.
Defined.

(** *** Splitting the chunks again *)

Lemma split_on_free (l : str) : ~ In LF l -> split_on LF l = [l].
Proof.
  induction l as [|c l IH]; intros Hfree; [reflexivity|]. simpl.
  destruct (N.eqb_spec c LF) as [->|_].
  - exfalso. apply Hfree. left; reflexivity.
  - rewrite IH; [reflexivity|]. intros Hin. apply Hfree. right; exact Hin.
Qed.

Lemma split_on_app (l r : str) :
  ~ In LF l -> split_on LF (l ++ LF :: r) = l :: split_on LF r.
Proof.
  induction l as [|c l IH]; intros Hfree; simpl.
  - reflexivity.
  - destruct (N.eqb_spec c LF) as [->|_].
    + exfalso. apply Hfree. left; reflexivity.
    + rewrite IH; [reflexivity|]. intros Hin. apply Hfree. right; exact Hin.
Qed.

(** Splitting a joined group gives the group back when no line of it has a
    line feed. *)
Lemma split_on_join (g : list str) :
  g <> [] -> Forall (fun l => ~ In LF l) g -> split_on LF (join [LF] g) = g.
Proof.
  induction g as [|l g IH]; [congruence|]. intros _ Hfree.
  inversion Hfree as [|? ? Hl Hg]; subst.
  destruct g as [|l' g].
  - simpl. apply split_on_free; assumption.
  - change (join [LF] (l :: l' :: g)) with (l ++ LF :: join [LF] (l' :: g)).
    rewrite split_on_app by assumption.
    rewrite IH by (assumption || discriminate). reflexivity.
Qed.

(** C2 fails for a line that itself holds a line feed: the chunk of the one
    line [a\nb] splits into the two lines [a] and [b]. *)
Lemma split_chunks_not_lossless :
  0 < 12000 /\
  concat (map (split_on LF) (chunk_text_blocks [[97; 10; 98]%N] 12000))
    = [[97%N]; [98%N]] /\
  concat (map (split_on LF) (chunk_text_blocks [[97; 10; 98]%N] 12000))
    <> [[97; 10; 98]%N].
Proof. split; [lia|]. split; [reflexivity | discriminate]. Qed.

(** C2, amended.  When no input line contains a line feed, splitting every
    chunk on the line feed and concatenating the pieces in chunk order
    gives the input lines back exactly. *)
Theorem split_chunks_lossless (lines : list str) (M : Z) :
  0 < M ->
  Forall (fun l => ~ In LF l) lines ->
  concat (map (split_on LF) (chunk_text_blocks lines M)) = lines.
Proof.
  intros _ Hfree.
  destruct (chunk_text_blocks_groups lines M) as (groups & Hc & Hj & Hg).
  rewrite Hj, map_map. subst lines. clear Hj.
  induction Hg as [|g groups [Hne _] _ IH]; [reflexivity|].
  simpl in Hfree |- *. apply Forall_app in Hfree. destruct Hfree as [Hg1 Hrest].
  rewrite split_on_join by assumption. rewrite IH by assumption. reflexivity.
Qed.

Lemma split_chunks_lossless_witness :
  0 < 6 /\
  Forall (fun l => ~ In LF l) [lit "ab"; lit "cd"; lit "efghijkl"; lit "x"] /\
  concat (map (split_on LF)
              (chunk_text_blocks [lit "ab"; lit "cd"; lit "efghijkl"; lit "x"] 6))
    = [lit "ab"; lit "cd"; lit "efghijkl"; lit "x"].
Proof.
  assert (Hfree : Forall (fun l => ~ In LF l)
                         [lit "ab"; lit "cd"; lit "efghijkl"; lit "x"]).
  { repeat constructor; unfold LF; simpl; intuition discriminate. }
  split; [lia|]. split; [exact Hfree|].
  apply (split_chunks_lossless _ 6); [lia | exact Hfree].
Defined.

(** ** The identity sanitizer *)

Lemma at_guarded_spec (s : str) :
  at_guarded s = true ->
  forall pre post, s = pre ++ AT :: post -> exists rest, post = ZWSP :: rest.
Proof.
  intros Hg pre. revert s Hg.
  induction pre as [|c pre IH]; intros s Hg post ->; simpl in Hg.
  - destruct post as [|z rest]; [discriminate|].
    apply andb_prop in Hg. destruct Hg as [Hz _].
    apply N.eqb_eq in Hz. subst z. eauto.
  - apply andb_prop in Hg. destruct Hg as [_ Hg]. eapply IH; eauto.
Qed.

Lemma at_guarded_skip (c : char) (t : str) :
  c <> AT -> at_guarded (c :: t) = at_guarded t.
Proof.
  intros Hc. simpl. destruct (N.eqb_spec c AT); [contradiction | reflexivity].
Qed.

Lemma at_guarded_at (t : str) :
  at_guarded (AT :: ZWSP :: t) = at_guarded t.
Proof. reflexivity. Qed.

Lemma at_guarded_inv (t : str) :
  at_guarded (AT :: t) = true ->
  exists rest, t = ZWSP :: rest /\ at_guarded rest = true.
Proof.
  destruct t as [|z rest]; simpl; [discriminate|].
  intros H. apply andb_prop in H. destruct H as [Hz Hg].
  apply N.eqb_eq in Hz. subst z. exists rest. split; [reflexivity|].
  exact Hg.
Qed.

(** The first pass: [name.replace("@", "@\u200b")]. *)
Lemma replace_at_cons (c : char) (t : str) :
  replace (c :: t) [AT] [AT; ZWSP]
  = (if (c =? AT)%N then [AT; ZWSP] else [c]) ++ replace t [AT] [AT; ZWSP].
Proof.
  unfold replace. cbn [replace_from starts_with length Nat.pred].
  rewrite N.eqb_sym, andb_true_r.
  destruct (c =? AT)%N; reflexivity.
Qed.

Lemma first_pass_guarded (s : str) :
  at_guarded (replace s [AT] [AT; ZWSP]) = true.
Proof.
  induction s as [|c t IH]; [reflexivity|].
  rewrite replace_at_cons. destruct (N.eqb_spec c AT) as [->|Hc].
  - cbn [app]. rewrite at_guarded_at. exact IH.
  - cbn [app]. rewrite at_guarded_skip by exact Hc. exact IH.
Qed.

Lemma second_pass_match (t : str) :
  second_pass (LT :: AT :: t) = LT :: AT :: ZWSP :: second_pass t.
Proof. reflexivity. Qed.

Lemma second_pass_other (c : char) (t : str) :
  starts_with [LT; AT] (c :: t) = false ->
  second_pass (c :: t) = c :: second_pass t.
Proof.
  intros H. unfold second_pass, replace.
  cbn [replace_from]. rewrite H. reflexivity.
Qed.

Lemma starts_with_lt_at (s : str) :
  starts_with [LT; AT] s = true -> exists t, s = LT :: AT :: t.
Proof.
  destruct s as [|c [|d t]]; cbn [starts_with]; try discriminate.
  - rewrite andb_false_r. discriminate.
  - rewrite andb_true_r. intros H. apply andb_prop in H. destruct H as [H1 H2].
    apply N.eqb_eq in H1, H2. subst. eauto.
Qed.

Lemma second_pass_guarded_upto (n : nat) (s : str) :
  (length s <= n)%nat -> at_guarded s = true -> at_guarded (second_pass s) = true.
Proof.
  revert s. induction n as [|n IH]; intros s Hn Hg.
  - destruct s; [reflexivity | simpl in Hn; lia].
  - destruct s as [|c t]; [reflexivity|]. simpl in Hn.
    destruct (starts_with [LT; AT] (c :: t)) eqn:Hsw.
    + (* an occurrence of <@ : the @ was already guarded *)
      apply starts_with_lt_at in Hsw. destruct Hsw as [t' Ht'].
      injection Ht' as -> ->.
      rewrite at_guarded_skip in Hg by discriminate.
      apply at_guarded_inv in Hg. destruct Hg as (rest & -> & Hg).
      rewrite second_pass_match.
      rewrite at_guarded_skip by discriminate. rewrite at_guarded_at.
      rewrite second_pass_other by reflexivity.
      rewrite at_guarded_skip by discriminate.
      apply IH; [simpl in Hn; lia | exact Hg].
    + rewrite second_pass_other by exact Hsw.
      destruct (N.eq_dec c AT) as [->|Hc].
      * apply at_guarded_inv in Hg. destruct Hg as (rest & -> & Hg).
        rewrite second_pass_other by reflexivity.
        rewrite at_guarded_at. apply IH; [simpl in Hn; lia | exact Hg].
      * rewrite at_guarded_skip in Hg |- * by exact Hc.
        apply IH; [lia | exact Hg].
Qed.

Lemma safe_name_guarded (name : str) : at_guarded (safe_name name) = true.
Proof.
  unfold safe_name. destruct name as [|c t]; [reflexivity|].
  cbn [truthy negb].
  apply (second_pass_guarded_upto _ _ (le_n _)). apply first_pass_guarded.
Qed.

(** C4 fails: the second replacement still finds [<@] at the start of
    [<@\u200b123>] and inserts a second zero-width space. *)
Lemma safe_name_mention_not_single :
  safe_name (lit "<@123>") <> lit "<@" ++ [ZWSP] ++ lit "123>".
Proof. vm_compute. discriminate. Qed.

(** C4, amended.  Sanitizing [<@123>] gives [<@\u200b\u200b123>]: the
    mention-opening sequence followed by two zero-width spaces, one from
    each replacement. *)
Theorem safe_name_mention :
  safe_name (lit "<@123>") = lit "<@" ++ [ZWSP; ZWSP] ++ lit "123>".
Proof. reflexivity. Qed.

(** C5.  In the sanitized form of a non-empty name, every [@] is
    immediately followed by the zero-width space U+200B. *)
Theorem safe_name_no_bare_at (name pre post : str) :
  name <> [] ->
  safe_name name = pre ++ AT :: post ->
  exists rest, post = ZWSP :: rest.
Proof.
  intros _ H. exact (at_guarded_spec _ (safe_name_guarded name) pre post H).
Qed.

Lemma safe_name_no_bare_at_witness :
  lit "a@b" <> [] /\
  safe_name (lit "a@b") = lit "a" ++ AT :: ZWSP :: lit "b" /\
  exists rest, ZWSP :: lit "b" = ZWSP :: rest.
Proof.
  split; [discriminate|]. split; [reflexivity|].
  apply (safe_name_no_bare_at (lit "a@b") (lit "a") (ZWSP :: lit "b"));
    [discriminate | reflexivity].
Defined.

(** ** The text normalizer *)

Local Arguments isspace : simpl never.
Local Arguments N.eqb : simpl never.

Lemma nonspace_rev (w : str) : nonspace w -> nonspace (rev w).
Proof. apply Forall_rev. Qed.

Lemma word_rev_cons (c : char) (cur : str) :
  nonspace (c :: cur) -> word (rev (c :: cur)).
Proof.
  intros H. split; [|apply nonspace_rev; exact H].
  simpl. destruct (rev cur); discriminate.
Qed.

Lemma split_from_words (s : str) :
  forall cur, nonspace cur -> Forall word (split_from cur s).
Proof.
  induction s as [|c t IH]; intros cur Hcur; simpl.
  - destruct cur; constructor; [apply word_rev_cons; exact Hcur | constructor].
  - destruct (isspace c) eqn:Hc.
    + destruct cur.
      * apply IH. constructor.
      * constructor; [apply word_rev_cons; exact Hcur | apply IH; constructor].
    + apply IH. constructor; assumption.
Qed.

Lemma split_words (s : str) : Forall word (split s).
Proof. apply split_from_words. constructor. Qed.

Lemma tidy_app_nonspace (w r : str) : nonspace w -> tidy (w ++ r) = tidy r.
Proof.
  induction 1 as [|c w Hc _ IH]; [reflexivity|].
  simpl. rewrite Hc, IH. reflexivity.
Qed.

Lemma join_words_head (w : str) (ws : list str) :
  word w -> exists c t, join [SP] (w :: ws) = c :: t /\ isspace c = false.
Proof.
  intros [Hne Hw]. destruct w as [|c w]; [congruence|].
  inversion Hw; subst.
  destruct ws; simpl; eauto.
Qed.

Lemma join_words_tidy (ws : list str) :
  Forall word ws -> tidy (join [SP] ws) = true.
Proof.
  induction 1 as [|w ws Hw Hws IH]; [reflexivity|].
  destruct ws as [|w' ws].
  - simpl. destruct Hw as [_ Hw].
    rewrite <- (app_nil_r w), tidy_app_nonspace by exact Hw. reflexivity.
  - change (join [SP] (w :: w' :: ws)) with (w ++ SP :: join [SP] (w' :: ws)).
    destruct Hw as [_ Hw]. rewrite tidy_app_nonspace by exact Hw.
    inversion Hws as [|? ? Hw' _]; subst.
    destruct (join_words_head w' ws Hw') as (c & t & Hj & Hc).
    rewrite Hj in IH |- *. cbn [tidy] in IH |- *.
    change (isspace SP) with true. rewrite Hc, N.eqb_refl. cbn [negb andb].
    rewrite Hc in IH. exact IH.
Qed.

Lemma join_words_starts_clean (ws : list str) :
  Forall word ws -> starts_clean (join [SP] ws) = true.
Proof.
  intros H. destruct H as [|w ws Hw _]; [reflexivity|].
  destruct (join_words_head w ws Hw) as (c & t & -> & Hc).
  simpl. rewrite Hc. reflexivity.
Qed.

(** What [tidy] says about the characters of a string. *)
Lemma tidy_space_is_sp (s : str) (c : char) :
  tidy s = true -> In c s -> isspace c = true -> c = SP.
Proof.
  induction s as [|d t IH]; simpl; [contradiction|].
  intros Ht [-> | Hin] Hc.
  - rewrite Hc in Ht. apply andb_prop in Ht. destruct Ht as [Ht _].
    apply andb_prop in Ht. destruct Ht as [Ht _]. apply N.eqb_eq. exact Ht.
  - apply andb_prop in Ht. destruct Ht as [_ Ht]. auto.
Qed.

Lemma tidy_no_double_space (s pre post : str) :
  tidy s = true -> s <> pre ++ SP :: SP :: post.
Proof.
  revert s. induction pre as [|c pre IH]; intros s Ht ->.
  - cbn [app tidy] in Ht. change (isspace SP) with true in Ht.
    cbn [negb andb] in Ht. rewrite andb_false_r in Ht. discriminate.
  - cbn [app tidy] in Ht. apply andb_prop in Ht. destruct Ht as [_ Ht].
    exact (IH _ Ht eq_refl).
Qed.

Lemma tidy_last (s t : str) (c : char) :
  tidy s = true -> s = t ++ [c] -> isspace c = false.
Proof.
  revert s. induction t as [|d t IH]; intros s Ht ->.
  - cbn [app tidy] in Ht. destruct (isspace c); [|reflexivity].
    rewrite andb_false_r in Ht. discriminate.
  - cbn [app tidy] in Ht. apply andb_prop in Ht. destruct Ht as [_ Ht].
    exact (IH _ Ht eq_refl).
Qed.

(** Stripping a tidy string that starts clean changes nothing. *)
Lemma lstrip_starts_clean (s : str) : starts_clean s = true -> lstrip s = s.
Proof.
  destruct s as [|c t]; [reflexivity|]. simpl.
  destruct (isspace c); [discriminate | reflexivity].
Qed.

Lemma rstrip_tidy (s : str) : tidy s = true -> rstrip s = s.
Proof.
  induction s as [|c t IH]; [reflexivity|].
  cbn [tidy rstrip]. intros Ht. apply andb_prop in Ht. destruct Ht as [Hc Ht].
  rewrite (IH Ht). destruct t as [|d t]; [|reflexivity].
  destruct (isspace c); [|reflexivity].
  rewrite andb_false_r in Hc. discriminate.
Qed.

(** Splitting a join of words gives the words back. *)
Lemma split_from_nonspace (w : str) :
  nonspace w ->
  forall cur rest, split_from cur (w ++ rest) = split_from (rev w ++ cur) rest.
Proof.
  induction 1 as [|c w Hc _ IH]; intros cur rest; [reflexivity|].
  cbn [app split_from]. rewrite Hc, IH. simpl. rewrite <- app_assoc. reflexivity.
Qed.

Lemma split_join_words (ws : list str) :
  Forall word ws -> split (join [SP] ws) = ws.
Proof.
  unfold split. induction 1 as [|w ws Hw Hws IH]; [reflexivity|].
  pose proof Hw as [Hne Hns].
  destruct ws as [|w' ws].
  - pose proof (split_from_nonspace w Hns [] []) as E.
    rewrite !app_nil_r in E. cbn [join]. rewrite E. cbn [split_from].
    destruct (rev w) eqn:Hr.
    + apply (f_equal (@rev char)) in Hr. rewrite rev_involutive in Hr.
      simpl in Hr. congruence.
    + rewrite <- Hr, rev_involutive. reflexivity.
  - change (join [SP] (w :: w' :: ws)) with (w ++ SP :: join [SP] (w' :: ws)).
    rewrite split_from_nonspace by exact Hns. rewrite app_nil_r.
    cbn [split_from]. change (isspace SP) with true. cbv iota.
    destruct (rev w) eqn:Hr.
    + apply (f_equal (@rev char)) in Hr. rewrite rev_involutive in Hr.
      simpl in Hr. congruence.
    + rewrite <- Hr, rev_involutive, IH. reflexivity.
Qed.

Lemma or_empty_some (s : str) : or_empty (Some s) = s.
Proof. destruct s; reflexivity. Qed.

Lemma clean_message_content_tidy (content : option str) :
  tidy (clean_message_content content) = true
  /\ starts_clean (clean_message_content content) = true.
Proof.
  unfold clean_message_content. split.
  - apply join_words_tidy, split_words.
  - apply join_words_starts_clean, split_words.
Qed.

Lemma clean_message_content_idempotent (content : option str) :
  clean_message_content (Some (clean_message_content content))
  = clean_message_content content.
Proof.
  destruct (clean_message_content_tidy content) as [Ht Hs].
  unfold clean_message_content at 1. rewrite or_empty_some.
  unfold strip. rewrite (lstrip_starts_clean _ Hs), (rstrip_tidy _ Ht).
  unfold clean_message_content. rewrite split_join_words by apply split_words.
  reflexivity.
Qed.

(** *** Line feeds in a chat line *)

Lemma first_pass_lf (s : str) :
  In LF (replace s [AT] [AT; ZWSP]) <-> In LF s.
Proof.
  induction s as [|c t IH]; [reflexivity|].
  rewrite replace_at_cons, in_app_iff, IH.
  destruct (c =? AT)%N eqn:Hc; simpl.
  - apply N.eqb_eq in Hc. subst c. unfold LF, AT, ZWSP.
    intuition discriminate.
  - tauto.
Qed.

Lemma second_pass_lf_upto (n : nat) (s : str) :
  (length s <= n)%nat -> (In LF (second_pass s) <-> In LF s).
Proof.
  revert s. induction n as [|n IH]; intros s Hn.
  - destruct s; [reflexivity | simpl in Hn; lia].
  - destruct s as [|c t]; [reflexivity|]. simpl in Hn.
    destruct (starts_with [LT; AT] (c :: t)) eqn:Hsw.
    + apply starts_with_lt_at in Hsw. destruct Hsw as [t' Ht'].
      injection Ht' as -> ->. rewrite second_pass_match.
      simpl in Hn. specialize (IH t' ltac:(lia)).
      simpl. unfold LF, LT, AT, ZWSP in *. intuition discriminate.
    + rewrite second_pass_other by exact Hsw.
      specialize (IH t ltac:(lia)). simpl. tauto.
Qed.

Lemma safe_name_lf (name : str) : In LF (safe_name name) <-> In LF name.
Proof.
  unfold safe_name. destruct name as [|c t].
  - simpl. unfold LF. intuition discriminate.
  - cbn [truthy negb].
    rewrite <- (first_pass_lf (c :: t)).
    apply (second_pass_lf_upto _ _ (le_n _)).
Qed.

Lemma digits_no_lf (d : Decimal.uint) : ~ In LF (digits d).
Proof.
  induction d; simpl; unfold LF; intuition discriminate.
Qed.

Lemma zero_pad_no_lf (width n : nat) : ~ In LF (zero_pad width n).
Proof.
  unfold zero_pad. rewrite in_app_iff. intros [H | H].
  - apply repeat_spec in H. discriminate.
  - exact (digits_no_lf _ H).
Qed.

Lemma strftime_no_lf (t : datetime) : ~ In LF (strftime t).
Proof.
  unfold strftime. rewrite !in_app_iff.
  pose proof (zero_pad_no_lf 4 (year t)).
  pose proof (zero_pad_no_lf 2 (month t)).
  pose proof (zero_pad_no_lf 2 (day t)).
  pose proof (zero_pad_no_lf 2 (hour t)).
  pose proof (zero_pad_no_lf 2 (minute t)).
  simpl. unfold LF. intuition discriminate.
Qed.

Lemma clean_message_content_no_lf (content : option str) :
  ~ In LF (clean_message_content content).
Proof.
  intros Hin. destruct (clean_message_content_tidy content) as [Ht _].
  pose proof (tidy_space_is_sp _ LF Ht Hin eq_refl). discriminate.
Qed.

(** A chat line has a line feed exactly when the author's name or the
    content has one. *)
Lemma chat_line_lf (msg : message) (text : str) :
  In LF (chat_line msg text)
  <-> In LF (author_display (msg_author msg)) \/ In LF text.
Proof.
  unfold chat_line. rewrite !in_app_iff, safe_name_lf.
  pose proof (strftime_no_lf (created_at msg)).
  simpl. unfold LF. intuition discriminate.
Qed.

(** C10 fails in its last part: the display name is not normalized, so a
    name with a line feed puts a line feed in the chat line given to the
    chunking engine. *)
Lemma chat_line_with_line_feed :
  collect [mkMessage (mkAuthor false (Some [97; 10; 98]%N) (lit "ab"))
                     (lit "hi") (mkDatetime 2024 1 2 3 4)]
    = [lit "[2024-01-02 03:04 UTC] a" ++ [LF] ++ lit "b: hi"]
  /\ In LF (lit "[2024-01-02 03:04 UTC] a" ++ [LF] ++ lit "b: hi").
Proof.
  split; [reflexivity|]. apply in_or_app. right. left. reflexivity.
Qed.

(** C10, amended.  For every input, [None] included, the normalized text
    has no line feed, no two consecutive spaces and no white space at
    either end, and normalizing it again changes nothing; a formatted chat
    line built from it has a line feed exactly when the author's display
    name has one. *)
Theorem clean_message_content_normalized (content : option str) :
  ~ In LF (clean_message_content content) /\
  (forall pre post, clean_message_content content <> pre ++ SP :: SP :: post) /\
  (forall c t, clean_message_content content = c :: t -> isspace c = false) /\
  (forall t c, clean_message_content content = t ++ [c] -> isspace c = false) /\
  clean_message_content (Some (clean_message_content content))
    = clean_message_content content /\
  (forall msg, In LF (chat_line msg (clean_message_content content))
               <-> In LF (author_display (msg_author msg))).
Proof.
  destruct (clean_message_content_tidy content) as [Ht Hs].
  repeat split.
  - apply clean_message_content_no_lf.
  - intros pre post. apply tidy_no_double_space. exact Ht.
  - intros c t E. rewrite E in Hs. simpl in Hs.
    destruct (isspace c); [discriminate | reflexivity].
  - intros t c E. exact (tidy_last _ t c Ht E).
  - apply clean_message_content_idempotent.
  - rewrite chat_line_lf. pose proof (clean_message_content_no_lf content). tauto.
  - rewrite chat_line_lf. tauto.
Qed.

Lemma clean_message_content_normalized_witness :
  clean_message_content (Some (lit "  hello   big world ")) = lit "hello big world"
  /\ isspace 104%N = false /\ isspace 100%N = false.
Proof.
  pose proof (clean_message_content_normalized
                (Some (lit "  hello   big world "))) as (_ & _ & Hhead & Hlast & _).
  split; [reflexivity|]. split.
  - apply (Hhead 104%N (lit "ello big world")). reflexivity.
  - apply (Hlast (lit "hello big worl") 100%N). reflexivity.
Defined.

(** ** The /summary handler *)

Section Runs.

Variable glossary : str.
Variable generate_content : backend.

Local Abbreviation gemini := (gemini_generate generate_content).
Local Abbreviation summarize' := (summarize glossary generate_content).

Lemma prompts_app (a b : trace) : prompts (a ++ b) = prompts a ++ prompts b.
Proof.
  induction a as [|e a IH]; [reflexivity|].
  destruct e; simpl; rewrite IH; reflexivity.
Qed.

Lemma prompts_map_calls (total : nat) (todo : list str) :
  forall i outs, length outs = length todo ->
  prompts (map_calls total i todo outs)
  = map (fun '(k, ch) => map_prompt k total ch)
        (combine (seq i (length todo)) todo).
Proof.
  induction todo as [|ch todo IH]; intros i [|o outs] Hlen;
    simpl in Hlen |- *; try discriminate; [reflexivity|].
  rewrite IH by lia. reflexivity.
Qed.

(** A call of the backend leaves one event, and raises exactly when the
    backend does. *)
Lemma gemini_generate_run (p : str) (tr : trace) :
  exists out,
    snd (gemini p tr) = tr ++ [Generate p out] /\
    match out with
    | Returned text => fst (gemini p tr) = Ok text
    | Raised e => fst (gemini p tr) = Exn e
    end.
Proof.
  unfold gemini_generate.
  destruct (generate_content _ p) as [t | e]; eexists; split; reflexivity.
Qed.

(** The map phase: either every call returns, or the calls stop at the
    first one that raises. *)
Lemma map_phase_run (total : nat) (todo : list str) :
  forall i partials tr,
    (exists outs,
        length outs = length todo /\
        map_phase generate_content total i todo partials tr
        = (Ok (partials ++ outs), tr ++ map_calls total i todo outs))
    \/ (exists calls p e,
        map_phase generate_content total i todo partials tr
        = (Exn e, tr ++ calls ++ [Generate p (Raised e)])).
Proof.
  induction todo as [|ch todo IH]; intros i partials tr.
  - left. exists []. simpl. rewrite !app_nil_r. auto.
  - cbn [map_phase]. unfold bind.
    destruct (gemini_generate_run (map_prompt i total ch) tr) as (out & Htr & Hres).
    destruct (gemini (map_prompt i total ch) tr) as [r tr'] eqn:Hg.
    simpl in Htr, Hres. subst tr'. destruct out as [text | e]; subst r.
    + destruct (IH (S i) (partials ++ [text])
                   (tr ++ [Generate (map_prompt i total ch) (Returned text)]))
        as [(outs & Hlen & Hrun) | (calls & p & e & Hrun)].
      * left. exists (text :: outs). split; [simpl; lia|].
        rewrite Hrun, <- !app_assoc. reflexivity.
      * right. exists (Generate (map_prompt i total ch) (Returned text) :: calls), p, e.
        rewrite Hrun, <- !app_assoc. reflexivity.
    + right. exists [], (map_prompt i total ch), e. reflexivity.
Qed.

(** Every run of the [try] block ends with a call of the backend and the
    reply that answers it. *)
Lemma summarize_run (chunks : list str) (tr : trace) :
  exists calls p out,
    snd (summarize' chunks tr)
    = tr ++ calls ++ [Generate p out; Send (reply_for out)].
Proof.
  unfold summarize, try_except.
  destruct (length chunks =? 1)%nat.
  - unfold bind.
    destruct (gemini_generate_run
                (build_summary_prompt glossary (nth 0 chunks [])) tr)
      as (out & Htr & Hres).
    destruct (gemini _ tr) as [r tr'] eqn:Hg. simpl in Htr, Hres. subst tr'.
    exists [], (build_summary_prompt glossary (nth 0 chunks [])), out.
    destruct out; subst r; unfold send; simpl; rewrite <- app_assoc; reflexivity.
  - unfold bind at 1.
    destruct (map_phase_run (length chunks) chunks 1%nat [] tr)
      as [(outs & Hlen & Hrun) | (calls & p & e & Hrun)]; rewrite Hrun.
    + unfold bind.
      destruct (gemini_generate_run (reduce_prompt (join [LF] ([] ++ outs)))
                                    (tr ++ map_calls (length chunks) 1 chunks outs))
        as (out & Htr & Hres).
      destruct (gemini _ _) as [r tr'] eqn:Hg. simpl in Htr, Hres. subst tr'.
      exists (map_calls (length chunks) 1 chunks outs),
             (reduce_prompt (join [LF] ([] ++ outs))), out.
      destruct out; subst r; unfold send; simpl; rewrite <- !app_assoc; reflexivity.
    + exists calls, p, (Raised e). unfold send; simpl.
      rewrite <- !app_assoc. reflexivity.
Qed.

Hypothesis Hreturns : never_raises generate_content.

Lemma gemini_generate_returns (p : str) (tr : trace) :
  exists text, gemini p tr = (Ok text, tr ++ [Generate p (Returned text)]).
Proof.
  unfold gemini_generate.
  destruct (Hreturns (length (generate_calls tr)) p) as [t ->].
  eexists. reflexivity.
Qed.

Lemma map_phase_returns (total : nat) (todo : list str) :
  forall i partials tr,
  exists outs,
    length outs = length todo /\
    map_phase generate_content total i todo partials tr
    = (Ok (partials ++ outs), tr ++ map_calls total i todo outs).
Proof.
  induction todo as [|ch todo IH]; intros i partials tr.
  - exists []. simpl. rewrite !app_nil_r. auto.
  - cbn [map_phase]. unfold bind.
    destruct (gemini_generate_returns (map_prompt i total ch) tr) as [text ->].
    destruct (IH (S i) (partials ++ [text])
                 (tr ++ [Generate (map_prompt i total ch) (Returned text)]))
      as (outs & Hlen & ->).
    exists (text :: outs). split; [simpl; lia|].
    rewrite <- !app_assoc. reflexivity.
Qed.

(** With one chunk: one call, on the summary prompt of the chunk. *)
Lemma summarize_one_chunk (chunks : list str) (tr : trace) :
  length chunks = 1%nat ->
  exists final,
    snd (summarize' chunks tr)
    = tr ++ [Generate (build_summary_prompt glossary (nth 0 chunks []))
                      (Returned final);
             Send (or_fallback final)].
Proof.
  intros Hlen. unfold summarize, try_except. rewrite Hlen. cbn [Nat.eqb].
  unfold bind.
  destruct (gemini_generate_returns
              (build_summary_prompt glossary (nth 0 chunks [])) tr) as [final ->].
  exists final. unfold send. simpl. rewrite <- app_assoc. reflexivity.
Qed.

(** Otherwise: one map call for each chunk, in order, then the reduce
    call on the joined partial summaries. *)
Lemma summarize_map_reduce (chunks : list str) (tr : trace) :
  length chunks <> 1%nat ->
  exists partials final,
    length partials = length chunks /\
    snd (summarize' chunks tr)
    = tr ++ map_calls (length chunks) 1 chunks partials
         ++ [Generate (reduce_prompt (join [LF] partials)) (Returned final);
             Send (or_fallback final)].
Proof.
  intros Hlen. unfold summarize, try_except.
  apply Nat.eqb_neq in Hlen. rewrite Hlen.
  unfold bind at 1.
  destruct (map_phase_returns (length chunks) chunks 1%nat [] tr)
    as (outs & Houts & ->).
  unfold bind.
  destruct (gemini_generate_returns
              (reduce_prompt (join [LF] ([] ++ outs)))
              (tr ++ map_calls (length chunks) 1 chunks outs)) as [final ->].
  exists outs, final. split; [exact Houts|].
  unfold send. simpl. rewrite <- !app_assoc. reflexivity.
Qed.

End Runs.

Lemma generate_calls_map_calls (total : nat) (todo : list str) :
  forall i outs,
    generate_calls (map_calls total i todo outs) = map_calls total i todo outs.
Proof.
  unfold generate_calls.
  induction todo as [|ch todo IH]; intros i [|o outs]; simpl; try reflexivity.
  rewrite IH. reflexivity.
Qed.

(** Messages the handler skips leave the list of chat lines as it was. *)
Lemma collect_skips (msgs : list message) :
  Forall (fun m => bot (msg_author m) = true
                   \/ clean_message_content (Some (content m)) = []) msgs ->
  forall acc, fold_left collect_step msgs acc = acc.
Proof.
  induction 1 as [|m msgs Hm _ IH]; intros acc; [reflexivity|].
  simpl. rewrite <- (IH acc) at 2. f_equal.
  unfold collect_step. destruct Hm as [-> | ->]; [reflexivity|].
  destruct (bot (msg_author m)); reflexivity.
Qed.

Lemma chunk_text_blocks_nonempty (lines : list str) (M : Z) :
  chunk_text_blocks lines M <> [] -> lines <> [].
Proof. intros H ->. apply H. reflexivity. Qed.

(** C8.  When every message of the window is written by a bot or
    normalizes to the empty string, the command sends one reply, the fixed
    text that no messages were found, and never calls the backend. *)
Theorem summary_no_messages (glossary : str) (generate_content : backend)
        (h : history) :
  ending h = Exhausted ->
  Forall (fun m => bot (msg_author m) = true
                   \/ clean_message_content (Some (content m)) = [])
         (yielded h) ->
  run_summary glossary generate_content TextChannel h
    = [Defer; Send (lit "No messages found in the past 24 hours.")]
  /\ replies (run_summary glossary generate_content TextChannel h)
    = [Send (lit "No messages found in the past 24 hours.")]
  /\ generate_calls (run_summary glossary generate_content TextChannel h) = [].
Proof.
  intros Hend Hskip.
  assert (E : run_summary glossary generate_content TextChannel h
              = [Defer; Send (lit "No messages found in the past 24 hours.")]).
  { unfold run_summary, summary, bind, defer. cbn [app].
    rewrite Hend. unfold collect. rewrite (collect_skips _ Hskip). reflexivity. }
  rewrite E. repeat split; reflexivity.
Qed.

Lemma summary_no_messages_witness :
  run_summary [] (fun _ _ => Failure (lit "unused")) TextChannel
    (mkHistory
       [mkMessage (mkAuthor true (Some (lit "helper")) (lit "helper"))
                  (lit "beep") (mkDatetime 2024 1 2 3 4);
        mkMessage (mkAuthor false (Some (lit "ann")) (lit "ann"))
                  (lit "   ") (mkDatetime 2024 1 2 3 5)]
       Exhausted)
  = [Defer; Send (lit "No messages found in the past 24 hours.")].
Proof.
  apply (summary_no_messages [] (fun _ _ => Failure (lit "unused"))
           (mkHistory
              [mkMessage (mkAuthor true (Some (lit "helper")) (lit "helper"))
                         (lit "beep") (mkDatetime 2024 1 2 3 4);
               mkMessage (mkAuthor false (Some (lit "ann")) (lit "ann"))
                         (lit "   ") (mkDatetime 2024 1 2 3 5)]
              Exhausted)).
  - reflexivity.
  - constructor; [left; reflexivity|].
    constructor; [right; reflexivity|]. constructor.
Defined.

Lemma after_last_generate_none (tr : trace) :
  prompts tr = [] -> after_last_generate tr = None.
Proof.
  induction tr as [|e t IH]; [reflexivity|].
  destruct e; simpl; try discriminate; intros H; rewrite (IH H); reflexivity.
Qed.

Lemma after_last_generate_split (pre post : trace) (p : str) (out : outcome) :
  prompts post = [] ->
  after_last_generate (pre ++ Generate p out :: post) = Some (out, post).
Proof.
  intros Hpost. induction pre as [|e pre IH]; simpl.
  - rewrite (after_last_generate_none _ Hpost). reflexivity.
  - rewrite IH. reflexivity.
Qed.

(** A run of the command either makes no call of the backend, or ends with
    a call and the reply that answers it. *)
Lemma run_summary_shape (glossary : str) (generate_content : backend)
      (channel : channel_kind) (h : history) :
  prompts (run_summary glossary generate_content channel h) = []
  \/ exists calls p out,
       run_summary glossary generate_content channel h
       = calls ++ [Generate p out; Send (reply_for out)].
Proof.
  unfold run_summary, summary, bind, defer. cbn [app].
  destruct channel; [|left; reflexivity].
  destruct (ending h); try (left; reflexivity).
  destruct (truthy (collect (yielded h))); [|left; reflexivity].
  cbn [negb]. right.
  destruct (summarize_run glossary generate_content
              (chunk_text_blocks (collect (yielded h)) 12000) [Defer])
    as (calls & p & out & ->).
  exists (Defer :: calls), p, out. reflexivity.
Qed.

(** C3.  When no call of the backend raises: with more than one chunk, the
    calls of the Generation Client are one map-phase call for each chunk,
    in chunk order and numbered from 1, followed by one reduce-phase call
    on the joined partial summaries; with one chunk there is one call, on
    the summary prompt of that chunk. *)
Theorem summary_generation_calls (glossary : str) (generate_content : backend)
        (h : history) (chunks : list str) :
  never_raises generate_content ->
  ending h = Exhausted ->
  chunks = chunk_text_blocks (collect (yielded h)) 12000 ->
  ((1 < length chunks)%nat ->
   exists partials final,
     length partials = length chunks /\
     generate_calls (run_summary glossary generate_content TextChannel h)
     = map_calls (length chunks) 1 chunks partials
       ++ [Generate (reduce_prompt (join [LF] partials)) (Returned final)] /\
     prompts (run_summary glossary generate_content TextChannel h)
     = map (fun '(i, ch) => map_prompt i (length chunks) ch)
           (combine (seq 1 (length chunks)) chunks)
       ++ [reduce_prompt (join [LF] partials)])
  /\ (length chunks = 1%nat ->
      exists final,
        generate_calls (run_summary glossary generate_content TextChannel h)
        = [Generate (build_summary_prompt glossary (nth 0 chunks []))
                    (Returned final)]).
Proof.
  intros Hret Hend Hchunks.
  assert (Hrun : chunks <> [] ->
                 run_summary glossary generate_content TextChannel h
                 = snd (summarize glossary generate_content chunks [Defer])).
  { intros Hne. unfold run_summary, summary, bind, defer. cbn [app].
    rewrite Hend. subst chunks. apply chunk_text_blocks_nonempty in Hne.
    apply truthy_true in Hne. rewrite Hne. reflexivity. }
  split; intros Hlen.
  - rewrite Hrun by (destruct chunks; [simpl in Hlen; lia | discriminate]).
    destruct (summarize_map_reduce glossary generate_content Hret chunks [Defer])
      as (partials & final & Hp & ->); [lia|].
    exists partials, final. split; [exact Hp|]. split.
    + unfold generate_calls. cbn [app filter is_generate].
      rewrite filter_app. fold (generate_calls (map_calls (length chunks) 1 chunks partials)).
      rewrite generate_calls_map_calls. reflexivity.
    + cbn [app prompts]. rewrite prompts_app.
      rewrite prompts_map_calls by exact Hp. reflexivity.
  - rewrite Hrun by (destruct chunks; [discriminate Hlen | discriminate]).
    destruct (summarize_one_chunk glossary generate_content Hret chunks [Defer] Hlen)
      as (final & ->).
    exists final. reflexivity.
Qed.

(** C9.  When the last call of the Generation Client in a run of the
    command returned the empty string, what follows it is one reply, the
    fixed fallback text. *)
Theorem summary_empty_final_reply (glossary : str) (generate_content : backend)
        (channel : channel_kind) (h : history) (pre post : trace) (p : str) :
  run_summary glossary generate_content channel h
    = pre ++ Generate p (Returned []) :: post ->
  prompts post = [] ->
  post = [Send (lit "Could not generate summary.")].
Proof.
  intros Hrun Hpost.
  destruct (run_summary_shape glossary generate_content channel h)
    as [Hnone | (calls & p' & out & Hshape)].
  - rewrite Hrun, prompts_app in Hnone. simpl in Hnone.
    apply app_eq_nil in Hnone. destruct Hnone as [_ Hnone]. discriminate.
  - pose proof (after_last_generate_split pre post p (Returned []) Hpost) as E1.
    pose proof (after_last_generate_split calls [Send (reply_for out)] p' out
                                          eq_refl) as E2.
    rewrite <- Hrun, Hshape, E2 in E1.
    injection E1 as -> <-. reflexivity.
Qed.

Lemma summary_generation_calls_witness :
  never_raises bullet_backend /\
  length (prompts (run_summary [] bullet_backend TextChannel two_long_messages))
  = 3%nat.
Proof.
  assert (Hret : never_raises bullet_backend).
  { intros i p. eexists. reflexivity. }
  split; [exact Hret|].
  destruct (summary_generation_calls [] bullet_backend two_long_messages
              (chunk_text_blocks (collect (yielded two_long_messages)) 12000)
              Hret eq_refl eq_refl) as [Hmany _].
  destruct Hmany as (partials & final & _ & _ & ->).
  - vm_compute. constructor.
  - rewrite length_app, length_map. vm_compute. reflexivity.
Defined.

Lemma summary_empty_final_reply_witness :
  skipn 2 (run_summary [] silent_backend TextChannel one_short_message)
  = [Send (lit "Could not generate summary.")].
Proof.
  apply (summary_empty_final_reply [] silent_backend TextChannel
           one_short_message [Defer]
           (skipn 2 (run_summary [] silent_backend TextChannel one_short_message))
           (build_summary_prompt [] (lit "[2024-01-02 03:04 UTC] ann: hello")));
    reflexivity.
Defined.

(** * Further properties *)

(** ** The chunking engine: the groups behind the chunks *)

Lemma finish_groups_from (M : Z) (rest : list str) :
  forall st,
    current_len st = lines_len (current st) ->
    finish (fold_left (chunk_step M) rest st)
    = chunks st ++ map (join [LF]) (groups_from M (current st) rest).
Proof.
  induction rest as [|line rest IH]; intros st Hlen.
  - unfold finish. simpl. destruct (truthy (current st)); simpl.
    + reflexivity.
    + rewrite app_nil_r. reflexivity.
  - cbn [fold_left groups_from]. rewrite <- Hlen.
    unfold chunk_step at 2.
    destruct ((current_len st + len line + 1 >? M) && truthy (current st)).
    + rewrite IH by (simpl; lia). cbn [chunks current map].
      rewrite <- app_assoc. reflexivity.
    + rewrite IH by (cbn [current current_len]; rewrite lines_len_app, Hlen;
                     simpl; lia).
      reflexivity.
Qed.

Lemma chunk_text_blocks_chunk_groups (lines : list str) (M : Z) :
  chunk_text_blocks lines M = map (join [LF]) (chunk_groups lines M).
Proof.
  unfold chunk_text_blocks, chunk_groups.
  apply (finish_groups_from M lines
           {| chunks := []; current := []; current_len := 0 |}).
  reflexivity.
Qed.

Lemma groups_from_concat (M : Z) (rest : list str) :
  forall cur, concat (groups_from M cur rest) = cur ++ rest.
Proof.
  induction rest as [|line rest IH]; intros cur; cbn [groups_from].
  - destruct cur; simpl; rewrite ?app_nil_r; reflexivity.
  - destruct ((lines_len cur + len line + 1 >? M) && truthy cur).
    + simpl. rewrite IH. reflexivity.
    + rewrite IH, <- app_assoc. reflexivity.
Qed.

(** With a non-empty buffer the first group starts with the buffer. *)
Lemma groups_from_head (M : Z) (rest : list str) :
  forall cur, cur <> [] ->
  exists ext more, groups_from M cur rest = (cur ++ ext) :: more.
Proof.
  induction rest as [|line rest IH]; intros cur Hne; cbn [groups_from].
  - apply truthy_true in Hne. rewrite Hne. exists [], []. rewrite app_nil_r.
    reflexivity.
  - destruct ((lines_len cur + len line + 1 >? M) && truthy cur).
    + exists [], (groups_from M [line] rest). rewrite app_nil_r. reflexivity.
    + destruct (IH (cur ++ [line])) as (ext & more & ->).
      { destruct cur; discriminate. }
      exists (line :: ext), more. rewrite <- app_assoc. reflexivity.
Qed.

Lemma groups_from_nonempty (M : Z) (rest : list str) :
  forall cur, Forall (fun g => g <> []) (groups_from M cur rest).
Proof.
  induction rest as [|line rest IH]; intros cur; cbn [groups_from].
  - destruct cur; simpl; constructor; [discriminate | constructor].
  - destruct ((lines_len cur + len line + 1 >? M) && truthy cur) eqn:Hc.
    + constructor; [|apply IH].
      apply andb_prop in Hc. destruct Hc as [_ Hc]. apply truthy_true. exact Hc.
    + apply IH.
Qed.

Lemma groups_from_greedy (M : Z) (rest : list str) :
  forall cur, greedy M (groups_from M cur rest).
Proof.
  induction rest as [|line rest IH]; intros cur; cbn [groups_from].
  - destruct (truthy cur); constructor.
  - destruct ((lines_len cur + len line + 1 >? M) && truthy cur) eqn:Hc.
    + apply andb_prop in Hc. destruct Hc as [Hgt _].
      rewrite Z.gtb_ltb in Hgt. apply Z.ltb_lt in Hgt.
      pose proof (IH [line]) as Hg.
      destruct (groups_from_head M rest [line]) as (ext & more & E);
        [discriminate|].
      rewrite E in Hg |- *. simpl in Hg |- *.
      apply greedy_cons; assumption.
    + apply IH.
Qed.

(** A group is within the budget, separators counted, or a single line. *)
Lemma groups_from_tight (M : Z) (rest : list str) :
  forall cur,
    (cur = [] \/ lines_len cur <= M \/ exists l, cur = [l]) ->
    Forall (fun g => lines_len g <= M \/ exists l, g = [l])
           (groups_from M cur rest).
Proof.
  induction rest as [|line rest IH]; intros cur Hcur; cbn [groups_from].
  - destruct cur as [|c cur]; simpl; constructor; [|constructor].
    destruct Hcur as [H | H]; [discriminate | exact H].
  - destruct (lines_len cur + len line + 1 >? M) eqn:Hgt;
      destruct (truthy cur) eqn:Htr; cbn [andb].
    + constructor.
      * apply truthy_true in Htr. destruct Hcur as [H | H]; [contradiction | exact H].
      * apply IH. right; right. eauto.
    + apply truthy_false in Htr. subst cur. apply IH. right; right.
      exists line. reflexivity.
    + apply IH. right; left. rewrite lines_len_app. simpl.
      rewrite Z.gtb_ltb in Hgt. apply Z.ltb_ge in Hgt. lia.
    + apply IH. right; left. rewrite lines_len_app. simpl.
      rewrite Z.gtb_ltb in Hgt. apply Z.ltb_ge in Hgt. lia.
Qed.

Lemma greedy_inside (M : Z) (pre : list (list str)) :
  forall groups g l g' post,
    greedy M groups ->
    groups = pre ++ g :: (l :: g') :: post ->
    M < lines_len g + len l + 1.
Proof.
  induction pre as [|a pre IH]; intros groups g l g' post Hg E.
  - destruct Hg as [| g0 | g0 l0 g0' more Hlt Hrest]; try discriminate.
    injection E as -> -> -> ->. exact Hlt.
  - destruct Hg as [| g0 | g0 l0 g0' more Hlt Hrest]; try discriminate.
    + injection E as _ E. destruct pre; discriminate.
    + injection E as _ E. exact (IH _ _ _ _ _ Hrest E).
Qed.

Lemma lines_len_nonneg (g : list str) : 0 <= lines_len g.
Proof. induction g as [|l g IH]; simpl; unfold len in *; lia. Qed.

Lemma join_app (sep : str) (a b : list str) :
  a <> [] -> b <> [] -> join sep (a ++ b) = join sep a ++ sep ++ join sep b.
Proof.
  intros Ha Hb. induction a as [|x a IH]; [congruence|].
  destruct a as [|y a].
  - simpl. destruct b; [congruence | reflexivity].
  - change (join sep ((x :: y :: a) ++ b))
      with (x ++ sep ++ join sep ((y :: a) ++ b)).
    rewrite IH by discriminate.
    change (join sep (x :: y :: a)) with (x ++ sep ++ join sep (y :: a)).
    rewrite <- !app_assoc. reflexivity.
Qed.

Lemma join_concat_groups (sep : str) (groups : list (list str)) :
  Forall (fun g => g <> []) groups ->
  join sep (map (join sep) groups) = join sep (concat groups).
Proof.
  induction 1 as [|g groups Hg Hgs IH]; [reflexivity|].
  destruct groups as [|g' groups].
  - simpl. rewrite app_nil_r. reflexivity.
  - change (join sep (map (join sep) (g :: g' :: groups)))
      with (join sep g ++ sep ++ join sep (map (join sep) (g' :: groups))).
    rewrite IH. change (concat (g :: g' :: groups))
      with (g ++ concat (g' :: groups)).
    rewrite join_app; [reflexivity | exact Hg |].
    inversion Hgs; subst. simpl. destruct g'; [congruence | discriminate].
Qed.

(** Lines that fit the budget together stay in the buffer. *)
Lemma groups_from_fit (M : Z) (rest : list str) :
  forall cur,
    lines_len (cur ++ rest) <= M ->
    groups_from M cur rest = if truthy (cur ++ rest) then [cur ++ rest] else [].
Proof.
  induction rest as [|line rest IH]; intros cur Hfit; cbn [groups_from].
  - rewrite app_nil_r. reflexivity.
  - assert (Hno : (lines_len cur + len line + 1 >? M) = false).
    { rewrite Z.gtb_ltb. apply Z.ltb_ge.
      rewrite lines_len_app in Hfit. simpl in Hfit.
      pose proof (lines_len_nonneg rest). lia. }
    rewrite Hno. cbn [andb].
    rewrite IH by (rewrite <- app_assoc; exact Hfit).
    rewrite <- app_assoc. reflexivity.
Qed.

(** Lines that each fill the budget alone are never buffered together. *)
Lemma groups_from_long (M : Z) (rest : list str) :
  forall l,
    M <= len l -> Forall (fun r => M <= len r) rest ->
    groups_from M [l] rest = map (fun r => [r]) (l :: rest).
Proof.
  induction rest as [|line rest IH]; intros l Hl Hrest; cbn [groups_from].
  - reflexivity.
  - inversion Hrest; subst.
    assert (Hgt : (lines_len [l] + len line + 1 >? M) = true).
    { rewrite Z.gtb_ltb. apply Z.ltb_lt. simpl. unfold len in *. lia. }
    rewrite Hgt. cbn [truthy andb]. rewrite IH by assumption. reflexivity.
Qed.

(** X1.  A chunk made of two or more lines is shorter than the budget:
    the chunks are the joins of [chunk_groups], which partition the
    lines, and a group of two or more lines joins to fewer than [M]
    characters. *)
Theorem chunk_of_several_lines_below_budget (lines : list str) (M : Z) :
  chunk_text_blocks lines M = map (join [LF]) (chunk_groups lines M) /\
  concat (chunk_groups lines M) = lines /\
  Forall (fun g => (2 <= length g)%nat -> len (join [LF] g) < M)
         (chunk_groups lines M).
Proof.
  split; [apply chunk_text_blocks_chunk_groups|].
  split; [apply groups_from_concat|].
  pose proof (groups_from_tight M lines [] (or_introl eq_refl)) as Ht.
  pose proof (groups_from_nonempty M lines []) as Hn.
  unfold chunk_groups. revert Hn.
  induction Ht as [|g gs Hg _ IH]; intros Hn; constructor.
  - inversion Hn; subst. intros Hlen.
    rewrite len_join by assumption.
    destruct Hg as [Hle | [l ->]]; [lia | simpl in Hlen; lia].
  - inversion Hn; subst. apply IH. assumption.
Qed.

(** X2.  Chunks are closed greedily: when a group is followed by another
    group, the first line of that group did not fit, that is, the group
    joined with that line would have at least [M] characters. *)
Theorem chunk_closed_only_when_full (lines : list str) (M : Z)
        (pre post : list (list str)) (g g' : list str) (l : str) :
  chunk_groups lines M = pre ++ g :: (l :: g') :: post ->
  chunk_text_blocks lines M
    = map (join [LF]) (pre ++ g :: (l :: g') :: post) /\
  M <= len (join [LF] (g ++ [l])).
Proof.
  intros E. split.
  - rewrite chunk_text_blocks_chunk_groups, E. reflexivity.
  - pose proof (greedy_inside M pre _ g l g' post
                  (groups_from_greedy M lines []) E) as Hlt.
    rewrite len_join by (destruct g; discriminate).
    rewrite lines_len_app. simpl. lia.
Qed.

Lemma chunk_closed_only_when_full_witness :
  chunk_groups [lit "ab"; lit "cd"; lit "efghijkl"; lit "x"] 6
    = [] ++ [lit "ab"; lit "cd"] :: (lit "efghijkl" :: []) :: [[lit "x"]] /\
  6 <= len (join [LF] ([lit "ab"; lit "cd"] ++ [lit "efghijkl"])).
Proof.
  split; [reflexivity|].
  apply (chunk_closed_only_when_full
           [lit "ab"; lit "cd"; lit "efghijkl"; lit "x"] 6
           [] [[lit "x"]] [lit "ab"; lit "cd"] [] (lit "efghijkl")).
  reflexivity.
Defined.

(** X3.  Joining the chunks with line feeds gives the same text as joining
    all the lines, whatever the lines contain. *)
Theorem chunks_join_to_the_same_text (lines : list str) (M : Z) :
  join [LF] (chunk_text_blocks lines M) = join [LF] lines.
Proof.
  rewrite chunk_text_blocks_chunk_groups.
  rewrite join_concat_groups by apply groups_from_nonempty.
  unfold chunk_groups. rewrite groups_from_concat. reflexivity.
Qed.

Lemma length_concat_nonempty {A : Type} (groups : list (list A)) :
  Forall (fun g => g <> []) groups ->
  (length groups <= length (concat groups))%nat.
Proof.
  induction 1 as [|g groups Hg _ IH]; [reflexivity|].
  simpl. rewrite length_app. destruct g; [congruence | simpl; lia].
Qed.

(** X4.  There are never more chunks than lines, and there is no chunk
    only when there is no line. *)
Theorem chunk_count_bounds (lines : list str) (M : Z) :
  (length (chunk_text_blocks lines M) <= length lines)%nat /\
  (chunk_text_blocks lines M = [] <-> lines = []).
Proof.
  rewrite chunk_text_blocks_chunk_groups.
  pose proof (groups_from_nonempty M lines []) as Hn.
  pose proof (groups_from_concat M lines []) as Hc. simpl in Hc.
  fold (chunk_groups lines M) in Hn, Hc.
  split.
  - rewrite length_map. rewrite <- Hc at 2. apply length_concat_nonempty, Hn.
  - split.
    + intros E. apply map_eq_nil in E. rewrite E in Hc. simpl in Hc. congruence.
    + intros ->. reflexivity.
Qed.

(** X5.  A non-empty list of lines gives one chunk holding all of them
    exactly when it is a single line or the lines joined have fewer than
    [M] characters. *)
Theorem one_chunk_iff_fits (lines : list str) (M : Z) :
  lines <> [] ->
  (chunk_text_blocks lines M = [join [LF] lines]
   <-> len (join [LF] lines) < M \/ exists l, lines = [l]).
Proof.
  intros Hne. rewrite chunk_text_blocks_chunk_groups. split.
  - intros E.
    pose proof (groups_from_tight M lines [] (or_introl eq_refl)) as Ht.
    pose proof (groups_from_concat M lines []) as Hc. simpl in Hc.
    fold (chunk_groups lines M) in Ht, Hc.
    destruct (chunk_groups lines M) as [|g [|g2 gs]]; try discriminate.
    simpl in Hc. rewrite app_nil_r in Hc. subst g.
    inversion Ht as [|? ? Hg _]; subst.
    destruct Hg as [Hle | Hone]; [left | right; exact Hone].
    rewrite len_join by exact Hne. lia.
  - intros [Hlt | [l ->]].
    + unfold chunk_groups. rewrite groups_from_fit.
      * simpl. apply truthy_true in Hne. rewrite Hne. reflexivity.
      * simpl. rewrite len_join in Hlt by exact Hne. lia.
    + unfold chunk_groups. cbn [groups_from truthy].
      rewrite andb_false_r. reflexivity.
Qed.

Lemma one_chunk_iff_fits_witness :
  [lit "ab"; lit "cd"] <> [] /\
  (chunk_text_blocks [lit "ab"; lit "cd"] 6 = [join [LF] [lit "ab"; lit "cd"]]
   <-> len (join [LF] [lit "ab"; lit "cd"]) < 6
       \/ exists l, [lit "ab"; lit "cd"] = [l]).
Proof.
  split; [discriminate|].
  apply (one_chunk_iff_fits [lit "ab"; lit "cd"] 6). discriminate.
Defined.

(** X6.  When every line has at least [M] characters, every line is a
    chunk of its own: the chunks are the lines. *)
Theorem long_lines_are_their_own_chunks (lines : list str) (M : Z) :
  Forall (fun l => M <= len l) lines ->
  chunk_text_blocks lines M = lines.
Proof.
  intros Hlong. rewrite chunk_text_blocks_chunk_groups. unfold chunk_groups.
  destruct Hlong as [|l rest Hl Hrest]; [reflexivity|].
  cbn [groups_from truthy]. rewrite andb_false_r. cbn [app].
  rewrite groups_from_long by assumption.
  rewrite map_map. simpl. f_equal. apply map_id.
Qed.

Lemma long_lines_are_their_own_chunks_witness :
  Forall (fun l => 3 <= len l) [lit "abcd"; lit "efg"; lit "hijkl"] /\
  chunk_text_blocks [lit "abcd"; lit "efg"; lit "hijkl"] 3
    = [lit "abcd"; lit "efg"; lit "hijkl"].
Proof.
  assert (H : Forall (fun l => 3 <= len l) [lit "abcd"; lit "efg"; lit "hijkl"]).
  { repeat constructor; vm_compute; discriminate. }
  split; [exact H|].
  apply (long_lines_are_their_own_chunks _ 3 H).
Defined.

(** ** The identity sanitizer as a single pass *)

Lemma two_passes_guard_from (s : str) :
  second_pass (replace s [AT] [AT; ZWSP]) = guard_from false s
  /\ second_pass (LT :: replace s [AT] [AT; ZWSP]) = LT :: guard_from true s.
Proof.
  induction s as [|c t [IH1 IH2]]; [split; reflexivity|].
  rewrite replace_at_cons. cbn [guard_from].
  destruct (N.eqb_spec c AT) as [->|Hat]; cbn [app].
  - split.
    + rewrite second_pass_other by reflexivity.
      rewrite second_pass_other by reflexivity. rewrite IH1. reflexivity.
    + rewrite second_pass_match.
      rewrite second_pass_other by reflexivity. rewrite IH1. reflexivity.
  - assert (Hc : forall rest, starts_with [LT; AT] (LT :: c :: rest) = false).
    { intros rest. cbn [starts_with]. rewrite N.eqb_refl.
      destruct (N.eqb_spec AT c); [congruence | reflexivity]. }
    destruct (N.eqb_spec c LT) as [->|Hlt].
    + split.
      * exact IH2.
      * rewrite second_pass_other by apply Hc. rewrite IH2. reflexivity.
    + assert (Hc' : forall rest, starts_with [LT; AT] (c :: rest) = false).
      { intros rest. cbn [starts_with].
        destruct (N.eqb_spec LT c); [congruence | reflexivity]. }
      split.
      * rewrite second_pass_other by apply Hc'. rewrite IH1. reflexivity.
      * rewrite second_pass_other by apply Hc.
        rewrite second_pass_other by apply Hc'. rewrite IH1. reflexivity.
Qed.

Lemma safe_name_guard_from (name : str) :
  name <> [] -> safe_name name = guard_from false name.
Proof.
  intros Hne. unfold safe_name. apply truthy_true in Hne. rewrite Hne.
  cbn [negb]. apply two_passes_guard_from.
Qed.

Lemma guard_from_without_zwsp (s : str) :
  forall b, without_zwsp (guard_from b s) = without_zwsp s.
Proof.
  unfold without_zwsp. induction s as [|c t IH]; intros b; [reflexivity|].
  cbn [guard_from]. destruct (N.eqb_spec c AT) as [->|Hat].
  - destruct b; cbn [app filter]; change (AT =? ZWSP)%N with false;
      rewrite N.eqb_refl; cbn [negb]; rewrite IH; reflexivity.
  - cbn [filter]. rewrite IH. reflexivity.
Qed.

Lemma guard_from_no_at (s : str) :
  forall b, ~ In AT s -> guard_from b s = s.
Proof.
  induction s as [|c t IH]; intros b Hno; [reflexivity|].
  cbn [guard_from]. destruct (N.eqb_spec c AT) as [->|Hat].
  - exfalso. apply Hno. left; reflexivity.
  - rewrite IH; [reflexivity|]. intros Hin. apply Hno. right; exact Hin.
Qed.

(** X7.  The two replacements of [safe_name] amount to one pass from left
    to right: every [@] gets a zero-width space after it, and a second one
    when it comes right after a [<]; every other character is kept. *)
Theorem safe_name_single_pass (name : str) :
  name <> [] -> safe_name name = guard_from false name.
Proof. exact (safe_name_guard_from name). Qed.

Lemma safe_name_single_pass_witness :
  lit "a<@b@" <> [] /\
  safe_name (lit "a<@b@")
  = lit "a<@" ++ [ZWSP; ZWSP] ++ lit "b@" ++ [ZWSP].
Proof.
  split; [discriminate|].
  rewrite (safe_name_single_pass (lit "a<@b@")) by discriminate. reflexivity.
Defined.

(** X8.  The sanitizer only inserts zero-width spaces: taking them out of
    the sanitized name gives the name without its own zero-width
    spaces. *)
Theorem safe_name_only_inserts_zwsp (name : str) :
  name <> [] -> without_zwsp (safe_name name) = without_zwsp name.
Proof.
  intros Hne. rewrite safe_name_guard_from by exact Hne.
  apply guard_from_without_zwsp.
Qed.

Lemma safe_name_only_inserts_zwsp_witness :
  lit "a<@b@" <> [] /\
  without_zwsp (safe_name (lit "a<@b@")) = lit "a<@b@".
Proof.
  split; [discriminate|].
  rewrite (safe_name_only_inserts_zwsp (lit "a<@b@")) by discriminate.
  reflexivity.
Defined.

(** X9.  A non-empty name without [@] comes back unchanged. *)
Theorem safe_name_without_at (name : str) :
  name <> [] -> ~ In AT name -> safe_name name = name.
Proof.
  intros Hne Hno. rewrite safe_name_guard_from by exact Hne.
  apply guard_from_no_at. exact Hno.
Qed.

Lemma safe_name_without_at_witness :
  lit "Ann <3" <> [] /\ ~ In AT (lit "Ann <3")
  /\ safe_name (lit "Ann <3") = lit "Ann <3".
Proof.
  assert (Hno : ~ In AT (lit "Ann <3")).
  { unfold AT. simpl. intuition discriminate. }
  split; [discriminate|]. split; [exact Hno|].
  apply (safe_name_without_at (lit "Ann <3")); [discriminate | exact Hno].
Defined.

(** ** More on the text normalizer *)

Lemma split_from_lstrip (s : str) :
  split_from [] (lstrip s) = split_from [] s.
Proof.
  induction s as [|c t IH]; [reflexivity|].
  cbn [lstrip split_from]. destruct (isspace c) eqn:Hc.
  - exact IH.
  - cbn [split_from]. rewrite Hc. reflexivity.
Qed.

Lemma split_from_rstrip (s : str) :
  forall cur, split_from cur (rstrip s) = split_from cur s.
Proof.
  induction s as [|c t IH]; intros cur; [reflexivity|].
  cbn [rstrip]. destruct (rstrip t) as [|d r] eqn:Hr.
  - destruct (isspace c) eqn:Hc.
    + cbn [split_from]. rewrite Hc.
      destruct cur; rewrite <- IH; reflexivity.
    + cbn [split_from]. rewrite Hc. rewrite <- IH. reflexivity.
  - rewrite <- Hr in IH |- *. clear Hr. cbn [split_from].
    destruct (isspace c).
    + destruct cur; rewrite IH; reflexivity.
    + apply IH.
Qed.

Lemma split_strip (s : str) : split (strip s) = split s.
Proof.
  unfold split, strip. rewrite split_from_rstrip. apply split_from_lstrip.
Qed.

Lemma split_from_nil (s : str) :
  forall cur,
    split_from cur s = [] <-> cur = [] /\ Forall (fun c => isspace c = true) s.
Proof.
  induction s as [|c t IH]; intros cur; cbn [split_from].
  - destruct cur; split; try discriminate.
    + intros _. split; [reflexivity | constructor].
    + intros _. reflexivity.
    + intros [H _]. discriminate.
  - destruct (isspace c) eqn:Hc.
    + destruct cur.
      * rewrite IH. split; intros [H1 H2]; split; auto.
        inversion H2; assumption.
      * split; [discriminate | intros [H _]; discriminate].
    + rewrite IH. split.
      * intros [H _]. discriminate.
      * intros [_ H]. inversion H; congruence.
Qed.

Lemma join_words_nil (ws : list str) :
  Forall word ws -> (join [SP] ws = [] <-> ws = []).
Proof.
  intros H. split; [|intros ->; reflexivity].
  destruct H as [|w ws Hw _]; [reflexivity|].
  destruct (join_words_head w ws Hw) as (c & t & -> & _). discriminate.
Qed.

Lemma split_from_not_nil (s : str) (cur : str) :
  cur <> [] -> split_from cur s <> [].
Proof. intros Hne H. apply split_from_nil in H. tauto. Qed.

(** A tidy string is the join of its words. *)
Lemma join_split_tidy (s : str) :
  tidy s = true ->
  forall cur,
    (cur <> [] \/ starts_clean s = true) ->
    join [SP] (split_from cur s) = rev cur ++ s.
Proof.
  induction s as [|c t IH]; intros Ht cur Hstart.
  - cbn [split_from]. destruct cur; [reflexivity|].
    rewrite app_nil_r. reflexivity.
  - cbn [tidy] in Ht. cbn [split_from]. destruct (isspace c) eqn:Hc.
    + apply andb_prop in Ht. destruct Ht as [Hsp Ht].
      apply andb_prop in Hsp. destruct Hsp as [Hsp Hnext].
      apply N.eqb_eq in Hsp. subst c.
      destruct cur as [|a cur].
      { destruct Hstart as [H | H]; [congruence|].
        cbn [starts_clean] in H. rewrite Hc in H. discriminate. }
      destruct t as [|d t']; [discriminate|].
      assert (Hrest : join [SP] (split_from [] (d :: t')) = d :: t').
      { rewrite (IH Ht []); [reflexivity|]. right. exact Hnext. }
      destruct (split_from [] (d :: t')) as [|w ws] eqn:Hs.
      { discriminate Hrest. }
      change (join [SP] (rev (a :: cur) :: w :: ws))
        with (rev (a :: cur) ++ [SP] ++ join [SP] (w :: ws)).
      rewrite Hrest. reflexivity.
    + apply andb_prop in Ht. destruct Ht as [_ Ht].
      rewrite (IH Ht (c :: cur)) by (left; discriminate).
      simpl. rewrite <- app_assoc. reflexivity.
Qed.

(** X10.  The normalized text is empty exactly when the input, [None]
    taken as the empty string, has only white-space characters. *)
Theorem clean_message_content_empty_iff (content : option str) :
  clean_message_content content = []
  <-> Forall (fun c => isspace c = true) (or_empty content).
Proof.
  unfold clean_message_content.
  rewrite (join_words_nil _ (split_words _)), split_strip.
  unfold split. rewrite split_from_nil. tauto.
Qed.

(** X11.  Normalizing keeps the words: splitting the normalized text at
    white space gives the same words, in the same order, as splitting the
    input. *)
Theorem clean_message_content_keeps_words (content : option str) :
  split (clean_message_content content) = split (or_empty content).
Proof.
  unfold clean_message_content.
  rewrite split_join_words by apply split_words. apply split_strip.
Qed.

(** X12.  Normalizing changes nothing exactly when the text is already
    tidy: it starts with a character that is not white space, and every
    white-space character in it is a single space followed by a character
    that is not white space. *)
Theorem clean_message_content_fixed_iff (s : str) :
  clean_message_content (Some s) = s
  <-> tidy s = true /\ starts_clean s = true.
Proof.
  split.
  - intros E. rewrite <- E. apply clean_message_content_tidy.
  - intros [Ht Hs]. unfold clean_message_content.
    rewrite or_empty_some. unfold strip.
    rewrite (lstrip_starts_clean _ Hs), (rstrip_tidy _ Ht).
    unfold split. rewrite (join_split_tidy s Ht []); [reflexivity|].
    right. exact Hs.
Qed.

(** ** What [strip] does to the prompt templates *)

Lemma rstrip_app_space (a b : str) : rstrip b = [] -> rstrip (a ++ b) = rstrip a.
Proof.
  intros Hb. induction a as [|c a IH]; [exact Hb|].
  cbn [app rstrip]. rewrite IH. reflexivity.
Qed.

Lemma rstrip_app_keep (a b : str) :
  rstrip b <> [] -> rstrip (a ++ b) = a ++ rstrip b.
Proof.
  intros Hb. induction a as [|c a IH]; [reflexivity|].
  cbn [app rstrip]. rewrite IH.
  destruct (a ++ rstrip b) eqn:E; [|reflexivity].
  apply app_eq_nil in E. destruct E as [_ E]. contradiction.
Qed.

Lemma rstrip_idempotent (s : str) : rstrip (rstrip s) = rstrip s.
Proof.
  induction s as [|c t IH]; [reflexivity|].
  cbn [rstrip]. destruct (rstrip t) as [|d r] eqn:Hr.
  - destruct (isspace c) eqn:Hc; [reflexivity|].
    cbn [rstrip]. rewrite Hc. reflexivity.
  - cbn [rstrip]. cbn [rstrip] in IH. rewrite IH. reflexivity.
Qed.

Lemma rstrip_app_rstrip (a b : str) : rstrip (a ++ rstrip b) = rstrip (a ++ b).
Proof.
  destruct (rstrip b) as [|d r] eqn:Hb.
  - rewrite app_nil_r, rstrip_app_space by exact Hb. reflexivity.
  - rewrite <- Hb.
    rewrite (rstrip_app_keep a b) by (rewrite Hb; discriminate).
    rewrite rstrip_app_keep by (rewrite rstrip_idempotent, Hb; discriminate).
    rewrite rstrip_idempotent. reflexivity.
Qed.

Lemma ends_clean_rstrip (s : str) : ends_clean s -> rstrip s = s /\ s <> [].
Proof.
  intros (pre & d & -> & Hd). split.
  - rewrite rstrip_app_keep; cbn [rstrip]; rewrite Hd; [reflexivity | discriminate].
  - destruct pre; discriminate.
Qed.

Lemma ends_clean_app (a b : str) : ends_clean b -> ends_clean (a ++ b).
Proof.
  intros (pre & d & -> & Hd). exists (a ++ pre), d.
  rewrite app_assoc. auto.
Qed.


Lemma ends_clean_last (t : str) (d : char) :
  isspace d = false -> ends_clean (t ++ [d]).
Proof. intros Hd. exists t, d. auto. Qed.


Lemma text_wrapped (mid : list str) :
  mid <> [] -> text ([] :: mid ++ [[]]) = LF :: join [LF] mid ++ [LF].
Proof.
  intros Hne. unfold text.
  change ([] :: mid ++ [[]]) with ([[]] ++ mid ++ [[]]).
  rewrite join_app; [|discriminate | destruct mid; discriminate].
  rewrite join_app by (exact Hne || discriminate).
  reflexivity.
Qed.

(** The same for a template given as the list of its lines, the first
    and the last of them empty. *)
Lemma text_wrapped_lines (l : list str) :
  l = [] :: removelast (tl l) ++ [[]] ->
  removelast (tl l) <> [] ->
  text l = LF :: join [LF] (removelast (tl l)) ++ [LF].
Proof. intros E Hne. rewrite E at 1. apply text_wrapped. exact Hne. Qed.

Lemma starts_clean_lit_app (a : ascii) (s : string) (rest : str) :
  isspace (N_of_ascii a) = false ->
  starts_clean (lit (String a s) ++ rest) = true.
Proof. intros H. cbn. rewrite H. reflexivity. Qed.

Local Arguments lit : simpl never.

(** Writes a text made with [++] and [::] with all brackets to the
    right. *)
Ltac flatten_text := repeat (progress (rewrite <- ?app_assoc; cbn [app])).



(** A template whose text starts with a character that is not white
    space loses its first line feed, and white space at its end. *)
Lemma strip_wrapped_start (body : str) :
  starts_clean body = true -> body <> [] ->
  strip (LF :: body ++ [LF]) = rstrip body.
Proof.
  intros Hs Hne. unfold strip. cbn [lstrip]. change (isspace LF) with true.
  cbv iota. destruct body as [|c body]; [congruence|].
  cbn [app lstrip]. cbn [starts_clean] in Hs.
  destruct (isspace c); [discriminate|].
  change (c :: body ++ [LF]) with ((c :: body) ++ [LF]).
  apply rstrip_app_space. reflexivity.
Qed.

Lemma lit_app_not_nil (a : ascii) (s : string) (rest : str) :
  lit (String a s) ++ rest <> [].
Proof. discriminate. Qed.

Lemma map_prompt_rstrip (i total : nat) (ch : str) :
  map_prompt i total ch = rstrip (map_prompt_head i total ++ ch).
Proof.
  unfold map_prompt.
  rewrite text_wrapped_lines; [|reflexivity | discriminate].
  cbn [tl removelast]. rewrite strip_wrapped_start.
  - f_equal. unfold map_prompt_head. cbn [join app]. flatten_text.
    reflexivity.
  - cbn [join]. apply starts_clean_lit_app. reflexivity.
  - cbn [join]. apply lit_app_not_nil.
Qed.

(** X14.  A map-phase prompt is its fixed head followed by the chunk,
    with the white space at the end removed; so white space at the end of
    a chunk never reaches the backend. *)
Theorem map_prompt_drops_trailing_space (i total : nat) (ch : str) :
  map_prompt i total ch = rstrip (map_prompt_head i total ++ ch)
  /\ map_prompt i total (rstrip ch) = map_prompt i total ch.
Proof.
  split; [apply map_prompt_rstrip|].
  rewrite !map_prompt_rstrip. apply rstrip_app_rstrip.
Qed.

Lemma map_prompt_whole (i total : nat) (ch : str) :
  ends_clean ch -> map_prompt i total ch = map_prompt_head i total ++ ch.
Proof.
  intros He. rewrite map_prompt_rstrip.
  destruct (ends_clean_rstrip ch He) as [Hr Hne].
  rewrite rstrip_app_keep by (rewrite Hr; exact Hne).
  rewrite Hr. reflexivity.
Qed.

(** X15.  The translation prompt is a fixed text around the target
    language, the glossary and the text to translate, in this order and
    copied as they are, with the white space at the very end removed. *)
Theorem build_translation_prompt_frame :
  exists a b c : str,
    forall glossary text_in target_language,
      build_translation_prompt glossary text_in target_language
      = rstrip (a ++ target_language ++ b ++ glossary ++ c ++ text_in).
Proof.
  match eval cbv delta [build_translation_prompt] in build_translation_prompt with
  | (fun g t lang =>
       strip (text [ []; ?l1; ?l2 ++ lang ++ ?l2'; ?l3; ?l4; ?l5; ?l6; ?l7; ?l8;
                     g; ?l10; ?l11; ?l12; ?l13; t; [] ])) =>
      exists (l1 ++ LF :: l2),
             (l2' ++ LF :: text [l3; l4; l5; l6; l7; l8] ++ [LF]),
             (LF :: text [l10; l11; l12; l13] ++ [LF])
  end.
  intros glossary text_in target_language. unfold build_translation_prompt.
  rewrite text_wrapped_lines; [|reflexivity | discriminate].
  cbn [tl removelast]. rewrite strip_wrapped_start.
  - f_equal. unfold text. cbn [join app]. flatten_text. reflexivity.
  - cbn [join]. apply starts_clean_lit_app. reflexivity.
  - cbn [join]. apply lit_app_not_nil.
Qed.

(** ** More on the /summary handler *)

(** The loop over the history is a filter followed by a map. *)
Lemma collect_step_kept (acc : list str) (msg : message) :
  collect_step acc msg
  = acc ++ (if kept msg
            then [chat_line msg (clean_message_content (Some (content msg)))]
            else []).
Proof.
  unfold collect_step, kept. destruct (bot (msg_author msg)); cbn [negb andb].
  - rewrite app_nil_r. reflexivity.
  - destruct (truthy (clean_message_content (Some (content msg)))); cbn [negb].
    + reflexivity.
    + rewrite app_nil_r. reflexivity.
Qed.

Lemma collect_from (msgs : list message) :
  forall acc,
    fold_left collect_step msgs acc
    = acc ++ map (fun m => chat_line m (clean_message_content (Some (content m))))
                 (filter kept msgs).
Proof.
  induction msgs as [|m msgs IH]; intros acc; cbn [fold_left filter].
  - rewrite app_nil_r. reflexivity.
  - rewrite IH, collect_step_kept, <- app_assoc.
    destruct (kept m); reflexivity.
Qed.

Lemma collect_filter_map (msgs : list message) :
  collect msgs
  = map (fun m => chat_line m (clean_message_content (Some (content m))))
        (filter kept msgs).
Proof. unfold collect. rewrite collect_from. reflexivity. Qed.

(** X16.  The chat lines are those of the kept messages, one line for each
    and in the order of the history: messages of bots and messages with
    nothing but white space leave no trace. *)
Theorem collect_is_filter_map (msgs : list message) :
  collect msgs
  = map (fun m => chat_line m (clean_message_content (Some (content m))))
        (filter kept msgs).
Proof. exact (collect_filter_map msgs). Qed.

Section Traces.

Variable glossary : str.
Variable generate_content : backend.

Local Abbreviation run_gemini := (gemini_generate generate_content).

(** The map phase with its events named: all the calls return, or the
    calls for the chunks [done] return and the call for the next chunk
    raises. *)
Lemma map_phase_trace (total : nat) (todo : list str) :
  forall i partials tr,
    (exists outs,
        length outs = length todo /\
        map_phase generate_content total i todo partials tr
        = (Ok (partials ++ outs), tr ++ map_calls total i todo outs))
    \/ (exists done ch rest outs e,
        todo = done ++ ch :: rest /\
        length outs = length done /\
        map_phase generate_content total i todo partials tr
        = (Exn e, tr ++ map_calls total i done outs
                     ++ [Generate (map_prompt (i + length done) total ch)
                                  (Raised e)])).
Proof.
  induction todo as [|ch todo IH]; intros i partials tr.
  - left. exists []. simpl. rewrite !app_nil_r. auto.
  - cbn [map_phase]. unfold bind.
    destruct (gemini_generate_run generate_content (map_prompt i total ch) tr)
      as (out & Htr & Hres).
    destruct (run_gemini (map_prompt i total ch) tr) as [r tr'] eqn:Hg.
    simpl in Htr, Hres. subst tr'. destruct out as [t | e]; subst r.
    + destruct (IH (S i) (partials ++ [t])
                   (tr ++ [Generate (map_prompt i total ch) (Returned t)]))
        as [(outs & Hlen & Hrun)
           | (done & ch' & rest & outs & e & Htodo & Hlen & Hrun)].
      * left. exists (t :: outs). split; [simpl; lia|].
        rewrite Hrun, <- !app_assoc. reflexivity.
      * right. exists (ch :: done), ch', rest, (t :: outs), e.
        split; [rewrite Htodo; reflexivity|]. split; [simpl; lia|].
        rewrite Hrun, <- !app_assoc. simpl.
        replace (S (i + length done)) with (i + S (length done))%nat by lia.
        reflexivity.
    + right. exists [], ch, todo, [], e.
      split; [reflexivity|]. split; [reflexivity|].
      simpl. rewrite Nat.add_0_r. reflexivity.
Qed.

(** Every run of the [try] block: map calls that returned, for the first
    chunks, then one more call and the reply that answers it. *)
Lemma summarize_trace (chunks : list str) (tr : trace) :
  exists done outs p out,
    (length done <= length chunks)%nat /\
    length outs = length done /\
    snd (summarize glossary generate_content chunks tr)
    = tr ++ map_calls (length chunks) 1 done outs
         ++ [Generate p out; Send (reply_for out)].
Proof.
  unfold summarize, try_except.
  destruct (length chunks =? 1)%nat.
  - unfold bind.
    destruct (gemini_generate_run generate_content
                (build_summary_prompt glossary (nth 0 chunks [])) tr)
      as (out & Htr & Hres).
    destruct (run_gemini _ tr) as [r tr'] eqn:Hg. simpl in Htr, Hres. subst tr'.
    exists [], [], (build_summary_prompt glossary (nth 0 chunks [])), out.
    split; [simpl; lia|]. split; [reflexivity|].
    destruct out; subst r; unfold send; simpl; rewrite <- app_assoc; reflexivity.
  - unfold bind at 1.
    destruct (map_phase_trace (length chunks) chunks 1%nat [] tr)
      as [(outs & Hlen & Hrun)
         | (done & ch & rest & outs & e & Htodo & Hlen & Hrun)]; rewrite Hrun.
    + unfold bind.
      destruct (gemini_generate_run generate_content
                  (reduce_prompt (join [LF] ([] ++ outs)))
                  (tr ++ map_calls (length chunks) 1 chunks outs))
        as (out & Htr & Hres).
      destruct (run_gemini _ _) as [r tr'] eqn:Hg. simpl in Htr, Hres. subst tr'.
      exists chunks, outs, (reduce_prompt (join [LF] ([] ++ outs))), out.
      split; [lia|]. split; [exact Hlen|].
      destruct out; subst r; unfold send; simpl; rewrite <- !app_assoc; reflexivity.
    + exists done, outs, (map_prompt (1 + length done) (length chunks) ch), (Raised e).
      split; [rewrite Htodo, length_app; lia|]. split; [exact Hlen|].
      unfold send; simpl. rewrite <- !app_assoc. reflexivity.
Qed.

(** Every run of the command: a fixed reply and no call, or the calls of
    [summarize_trace]. *)
Lemma run_summary_trace (channel : channel_kind) (h : history) :
  (exists s, s <> [] /\
             run_summary glossary generate_content channel h = [Defer; Send s] /\
             (channel = OtherChannel \/ ending h <> Exhausted
              \/ collect (yielded h) = []))
  \/ (exists done outs p out,
        channel = TextChannel /\ ending h = Exhausted /\
        collect (yielded h) <> [] /\
        (length done
         <= length (chunk_text_blocks (collect (yielded h)) 12000))%nat /\
        length outs = length done /\
        run_summary glossary generate_content channel h
        = Defer :: map_calls
                     (length (chunk_text_blocks (collect (yielded h)) 12000))
                     1 done outs
                ++ [Generate p out; Send (reply_for out)]).
Proof.
  unfold run_summary, summary, bind, defer. cbn [app].
  destruct channel.
  2: { left. eexists. split; [|split; [reflexivity | auto]]. discriminate. }
  destruct (ending h) eqn:Hend.
  2: { left. eexists. split; [|split; [reflexivity | right; left; discriminate]].
       discriminate. }
  2: { left. eexists. split; [|split; [reflexivity | right; left; discriminate]].
       discriminate. }
  destruct (truthy (collect (yielded h))) eqn:Htr; cbn [negb].
  - right. apply truthy_true in Htr.
    destruct (summarize_trace
                (chunk_text_blocks (collect (yielded h)) 12000) [Defer])
      as (done & outs & p & out & Hle & Hlen & ->).
    exists done, outs, p, out. repeat split; auto.
  - left. apply truthy_false in Htr.
    eexists. split; [|split; [reflexivity | auto]]. discriminate.
Qed.

End Traces.

Lemma map_calls_returned (total : nat) (done : list str) :
  forall i outs,
    Forall (fun ev => exists p t, ev = Generate p (Returned t))
           (map_calls total i done outs).
Proof.
  induction done as [|ch done IH]; intros i [|o outs]; simpl; constructor; eauto.
Qed.




(** Where an event stands in a trace that ends with a call and a reply,
    when it is neither one of the events before nor the reply. *)
Lemma split_at_last_call (A : trace) (x y z : event) :
  forall pre post,
    Forall (fun a => a <> z) A -> z <> y ->
    A ++ [x; y] = pre ++ z :: post ->
    x = z /\ post = [y].
Proof.
  induction A as [|a A IH]; intros pre post HA Hzy E.
  - destruct pre as [|a1 [|a2 pre]]; simpl in E.
    + injection E as -> <-. auto.
    + injection E as _ E2 _. congruence.
    + injection E as _ _ E. destruct pre; discriminate.
  - inversion HA; subst. destruct pre as [|a1 pre]; simpl in E.
    + injection E as E _. congruence.
    + injection E as _ E. eapply IH; eauto.
Qed.

Lemma chunk_text_blocks_length (lines : list str) (M : Z) :
  (length (chunk_text_blocks lines M) <= length lines)%nat.
Proof.
  rewrite chunk_text_blocks_chunk_groups, length_map.
  pose proof (groups_from_concat M lines []) as Hc. simpl in Hc.
  rewrite <- Hc at 2. apply length_concat_nonempty, groups_from_nonempty.
Qed.

Lemma collect_not_nil (msgs : list message) :
  collect msgs <> [] <-> exists m, In m msgs /\ kept m = true.
Proof.
  rewrite collect_filter_map. split.
  - intros H. destruct (filter kept msgs) as [|m l] eqn:E; [contradiction|].
    exists m. apply filter_In. rewrite E. left; reflexivity.
  - intros (m & Hin & Hk) E. apply map_eq_nil in E.
    assert (Hm : In m (filter kept msgs)) by (apply filter_In; auto).
    rewrite E in Hm. contradiction.
Qed.


(** X18.  The backend is called exactly when the command runs in a text
    channel, the history is read to its end, and at least one message is
    kept. *)
Theorem summary_calls_backend_iff (glossary : str) (generate_content : backend)
        (channel : channel_kind) (h : history) :
  prompts (run_summary glossary generate_content channel h) <> []
  <-> channel = TextChannel /\ ending h = Exhausted
      /\ exists m, In m (yielded h) /\ kept m = true.
Proof.
  rewrite <- collect_not_nil.
  destruct (run_summary_trace glossary generate_content channel h)
    as [(s & _ & -> & Hwhy)
       | (done & outs & p & out & Hch & Hend & Hne & _ & _ & ->)].
  - split.
    + intros H. contradiction H. reflexivity.
    + intros (Hch & Hend & Hne). destruct Hwhy as [-> | [H | H]];
        [discriminate | contradiction | contradiction].
  - split; [auto|]. intros _.
    change (Defer :: ?l) with ([Defer] ++ l). rewrite !prompts_app. simpl.
    intros E. apply app_eq_nil in E. destruct E as [_ E]. discriminate.
Qed.

(** X19.  A call of the backend that raises is the last call of the run,
    and the reply that follows is the error text with the exception in
    it: no later chunk is sent to the backend and no reduce call is
    made. *)
Theorem summary_stops_at_first_failure (glossary : str)
        (generate_content : backend) (channel : channel_kind) (h : history)
        (pre post : trace) (p e : str) :
  run_summary glossary generate_content channel h
    = pre ++ Generate p (Raised e) :: post ->
  post = [Send (lit "Error generating summary: " ++ e)].
Proof.
  intros Hrun.
  destruct (run_summary_trace glossary generate_content channel h)
    as [(s & _ & E & _)
       | (done & outs & p' & out & _ & _ & _ & _ & _ & E)];
    rewrite E in Hrun.
  - destruct pre as [|a1 [|a2 [|a3 pre]]]; simpl in Hrun; discriminate.
  - change (Defer :: ?l ++ ?r) with ((Defer :: l) ++ r) in Hrun.
    apply split_at_last_call in Hrun.
    + destruct Hrun as [Hout ->]. injection Hout as _ ->. reflexivity.
    + constructor; [discriminate|].
      eapply Forall_impl; [|apply map_calls_returned].
      intros ev (q & t & ->). discriminate.
    + discriminate.
Qed.

Lemma summary_stops_at_first_failure_witness :
  skipn 2 (run_summary [] (fun _ _ => Failure (lit "quota")) TextChannel
                       one_short_message)
  = [Send (lit "Error generating summary: quota")].
Proof.
  apply (summary_stops_at_first_failure []
           (fun _ _ => Failure (lit "quota")) TextChannel one_short_message
           [Defer] _
           (build_summary_prompt [] (lit "[2024-01-02 03:04 UTC] ann: hello"))
           (lit "quota")).
  reflexivity.
Defined.

(** X20.  A run calls the backend at most once for each kept message and
    once more. *)
Theorem summary_calls_bound (glossary : str) (generate_content : backend)
        (channel : channel_kind) (h : history) :
  (length (prompts (run_summary glossary generate_content channel h))
   <= length (filter kept (yielded h)) + 1)%nat.
Proof.
  destruct (run_summary_trace glossary generate_content channel h)
    as [(s & _ & -> & _)
       | (done & outs & p & out & _ & _ & _ & Hle & Hlen & ->)].
  - simpl. lia.
  - change (Defer :: ?l) with ([Defer] ++ l). rewrite !prompts_app.
    rewrite prompts_map_calls by exact Hlen.
    rewrite !length_app, length_map, length_combine, length_seq. simpl.
    pose proof (chunk_text_blocks_length (collect (yielded h)) 12000) as Hc.
    assert (Hk : length (collect (yielded h))
                 = length (filter kept (yielded h))).
    { rewrite collect_filter_map, length_map. reflexivity. }
    lia.
Qed.

(** ** Chunks of chat lines in the map prompts *)

Lemma tidy_ends_clean (s : str) : tidy s = true -> s <> [] -> ends_clean s.
Proof.
  intros Ht Hne. exists (removelast s), (last s 0%N).
  pose proof (app_removelast_last 0%N Hne) as E.
  split; [exact E|]. exact (tidy_last s _ _ Ht E).
Qed.

Lemma join_ends_clean (g : list str) :
  g <> [] -> Forall ends_clean g -> ends_clean (join [LF] g).
Proof.
  induction g as [|l g IH]; [congruence|]. intros _ Hg.
  inversion Hg; subst. destruct g as [|l' g]; [assumption|].
  change (join [LF] (l :: l' :: g)) with (l ++ [LF] ++ join [LF] (l' :: g)).
  apply ends_clean_app, ends_clean_app, IH; [discriminate | assumption].
Qed.

Lemma Forall_concat_inv {A : Type} (P : A -> Prop) (groups : list (list A)) :
  Forall P (concat groups) -> Forall (Forall P) groups.
Proof.
  induction groups as [|g groups IH]; intros H; constructor;
    simpl in H; apply Forall_app in H; tauto.
Qed.

Lemma collect_ends_clean (msgs : list message) :
  Forall ends_clean (collect msgs).
Proof.
  rewrite collect_filter_map. apply Forall_map, Forall_forall.
  intros m Hm. apply filter_In in Hm. destruct Hm as [_ Hk].
  unfold kept in Hk. apply andb_prop in Hk. destruct Hk as [_ Hk].
  apply truthy_true in Hk. unfold chat_line.
  repeat apply ends_clean_app.
  apply tidy_ends_clean; [apply clean_message_content_tidy | exact Hk].
Qed.

(** X21.  In a run of the command no chunk loses anything in its map
    prompt: every chunk made from the chat lines ends with a character
    that is not white space, so the prompt is the fixed head followed by
    the whole chunk. *)
Theorem summary_map_prompts_hold_whole_chunks (msgs : list message) (M : Z) :
  Forall (fun ch => forall i total,
              map_prompt i total ch = map_prompt_head i total ++ ch)
         (chunk_text_blocks (collect msgs) M).
Proof.
  rewrite chunk_text_blocks_chunk_groups. apply Forall_map.
  pose proof (groups_from_nonempty M (collect msgs) []) as Hne.
  pose proof (collect_ends_clean msgs) as Hc.
  pose proof (groups_from_concat M (collect msgs) []) as Hcat.
  simpl in Hcat. rewrite <- Hcat in Hc. clear Hcat.
  apply Forall_concat_inv in Hc. fold (chunk_groups (collect msgs) M) in *.
  induction Hne as [|g gs Hg _ IH]; constructor.
  - inversion Hc; subst. intros i total.
    apply map_prompt_whole, join_ends_clean; assumption.
  - inversion Hc; subst. apply IH. assumption.
Qed.

(** ** The reaction handler *)

Section ReactionRuns.

Variable glossary : str.
Variable generate_content : backend.

(** The last [try] of the handler, from an empty trace: one call, then
    the reply if there is one; no exception gets out. *)
Lemma translate_and_reply (text_in target_language : str)
      (failure : option str) :
  exists out,
    try_except
      (translated <- gemini_generate generate_content
                       (build_translation_prompt glossary text_in
                                                 target_language) ;;
       if negb (truthy translated) then ret tt
       else msg_reply failure translated)
      (fun _ => ret tt) []
    = (Ok tt,
       Generate (build_translation_prompt glossary text_in target_language) out
       :: reaction_reply out failure).
Proof.
  unfold try_except, bind, gemini_generate. cbn [generate_calls filter length app].
  destruct (generate_content 0%nat _) as [t | e].
  - exists (Returned (strip (or_empty t))).
    destruct (strip (or_empty t)) as [|c s]; cbn [truthy negb]; [reflexivity|].
    unfold msg_reply, reaction_reply. destruct failure; reflexivity.
  - exists (Raised e). reflexivity.
Qed.

Lemma run_reaction_cases (r : reaction) :
  (run_reaction glossary generate_content r = (Ok tt, [])
   /\ forall lang msg, ~ translatable r lang msg)
  \/ (exists lang msg out,
        translatable r lang msg /\
        run_reaction glossary generate_content r
        = (Ok tt,
           Generate (build_translation_prompt glossary
                       (clean_message_content (Some (content msg))) lang) out
           :: reaction_reply out (reply_failure r))).
Proof.
  unfold run_reaction, on_raw_reaction_add.
  destruct (client_user r) as [uid|] eqn:Hu.
  2: { left. split; [reflexivity|].
       intros lang msg (u & c & H & _). congruence. }
  destruct (Z.eqb_spec (payload_user_id r) uid) as [Hid | Hid].
  { left. split; [reflexivity|].
    intros lang msg (u & c & H & Hne & _). congruence. }
  destruct (dict_get SUPPORTED_FLAGS (payload_emoji r)) as [lang|] eqn:Hflag.
  2: { left. split; [reflexivity|].
       intros lang msg (u & c & _ & _ & H & _). congruence. }
  fold (resolved_channel r).
  destruct (resolved_channel r) as [c | e] eqn:Hc.
  2: { left. split; [reflexivity|].
       intros l msg (u & c & _ & _ & _ & H & _). congruence. }
  assert (Hother : c = IsOtherChannel ->
                   forall l msg, ~ translatable r l msg).
  { intros -> l msg (u & c' & _ & _ & _ & H & Hne & _). congruence. }
  destruct (fetched_message r) as [msg | e] eqn:Hm.
  2: { left. split; [destruct c; reflexivity|].
       intros l m (u & c' & _ & _ & _ & _ & _ & H & _). congruence. }
  destruct (bot (msg_author msg)) eqn:Hbot.
  { left. split; [destruct c; reflexivity|].
    intros l m (u & c' & _ & _ & _ & _ & _ & H & Hb & _). congruence. }
  destruct (clean_message_content (Some (content msg))) as [|a s] eqn:Hclean.
  { left. split; [destruct c; rewrite ?Hclean; reflexivity|].
    intros l m (u & c' & _ & _ & _ & _ & _ & H & _ & Hne). congruence. }
  destruct c.
  3: { left. split; [reflexivity | auto]. }
  all: right;
    destruct (translate_and_reply (a :: s) lang (reply_failure r)) as [out E];
    exists lang, msg, out; split;
    [ exists uid; eexists; repeat split; eauto; try congruence; discriminate
    | rewrite Hclean; cbn [truthy negb]; exact E ].
Qed.

End ReactionRuns.

(** The sample reaction, run: one call, on the prompt for German of the
    normalized message, and the returned text as the reply. *)
Example german_flag_reaction_run :
  run_reaction [] bullet_backend german_flag_reaction
  = (Ok tt,
     [Generate (build_translation_prompt [] (lit "kya haal hai") (lit "German"))
               (Returned (lit "- ok"));
      Send (lit "- ok")]).
Proof. reflexivity. Qed.

(** X22.  The reaction handler does something exactly when the reaction
    is translatable: otherwise (the client's own reaction, an emoji that is
    no supported flag, a channel or message that cannot be fetched, a
    message of a bot, a message of white space only) it makes no call and
    sends no reply. *)
Theorem reaction_acts_iff_translatable (glossary : str)
        (generate_content : backend) (r : reaction) :
  snd (run_reaction glossary generate_content r) <> []
  <-> exists target_language msg, translatable r target_language msg.
Proof.
  destruct (run_reaction_cases glossary generate_content r)
    as [[-> Hno] | (lang & msg & out & Ht & ->)]; simpl.
  - split; [congruence|]. intros (lang & msg & H). destruct (Hno _ _ H).
  - split; [eauto | discriminate].
Qed.

(** X23.  A reaction leads to at most one call of the backend, on the
    translation prompt of the normalized message for the language of the
    flag, and to at most one reply: the text the call returned, sent only
    when it is not empty.  No exception leaves the handler. *)
Theorem reaction_one_call_one_reply (glossary : str)
        (generate_content : backend) (r : reaction) :
  run_reaction glossary generate_content r = (Ok tt, [])
  \/ exists target_language msg out,
       translatable r target_language msg /\
       run_reaction glossary generate_content r
       = (Ok tt,
          Generate (build_translation_prompt glossary
                      (clean_message_content (Some (content msg)))
                      target_language) out
          :: reaction_reply out (reply_failure r)).
Proof.
  destruct (run_reaction_cases glossary generate_content r)
    as [[E _] | H]; [left; exact E | right; exact H].
Qed.

(** ** Start-up *)

Lemma lstrip_all_space (s : str) :
  Forall (fun c => isspace c = true) s -> lstrip s = [].
Proof.
  induction 1 as [|c s Hc _ IH]; [reflexivity|].
  cbn [lstrip]. rewrite Hc. exact IH.
Qed.

Lemma strip_nil_iff (s : str) :
  strip s = [] <-> Forall (fun c => isspace c = true) s.
Proof.
  split.
  - intros E. pose proof (split_strip s) as Hs. rewrite E in Hs.
    symmetry in Hs. apply (split_from_nil s []) in Hs. tauto.
  - intros H. unfold strip. rewrite (lstrip_all_space s H). reflexivity.
Qed.

Lemma truthy_strip_false (s : str) :
  negb (truthy (strip s)) = true <-> Forall (fun c => isspace c = true) s.
Proof.
  rewrite <- strip_nil_iff. destruct (strip s); simpl; split;
    congruence || discriminate || reflexivity.
Qed.

(** X24.  Start-up fails exactly when one of the two tokens is not set or
    has only white space, and the Discord token is looked at first. *)
Theorem load_config_fails_iff (env : str -> option str) :
  (load_config env = Exn (lit "Missing DISCORD_TOKEN in .env")
   <-> Forall (fun c => isspace c = true) (getenv env (lit "DISCORD_TOKEN") []))
  /\ (load_config env = Exn (lit "Missing GEMINI_API_KEY in .env")
      <-> ~ Forall (fun c => isspace c = true)
                   (getenv env (lit "DISCORD_TOKEN") [])
          /\ Forall (fun c => isspace c = true)
                    (getenv env (lit "GEMINI_API_KEY") []))
  /\ ((exists e, load_config env = Exn e)
      <-> Forall (fun c => isspace c = true)
                 (getenv env (lit "DISCORD_TOKEN") [])
          \/ Forall (fun c => isspace c = true)
                    (getenv env (lit "GEMINI_API_KEY") [])).
Proof.
  unfold load_config.
  pose proof (truthy_strip_false (getenv env (lit "DISCORD_TOKEN") [])) as Hd.
  pose proof (truthy_strip_false (getenv env (lit "GEMINI_API_KEY") [])) as Hg.
  destruct (negb (truthy (strip (getenv env (lit "DISCORD_TOKEN") [])))).
  - assert (D : Forall (fun c => isspace c = true)
                       (getenv env (lit "DISCORD_TOKEN") []))
      by (apply Hd; reflexivity).
    split; [tauto|]. split.
    + split; [discriminate | tauto].
    + split; [tauto | eauto].
  - assert (D : ~ Forall (fun c => isspace c = true)
                         (getenv env (lit "DISCORD_TOKEN") [])).
    { intros H. apply Hd in H. discriminate. }
    destruct (negb (truthy (strip (getenv env (lit "GEMINI_API_KEY") [])))).
    + assert (G : Forall (fun c => isspace c = true)
                         (getenv env (lit "GEMINI_API_KEY") []))
        by (apply Hg; reflexivity).
      split; [split; [discriminate | tauto]|].
      split; [tauto|]. split; [tauto | eauto].
    + assert (G : ~ Forall (fun c => isspace c = true)
                           (getenv env (lit "GEMINI_API_KEY") [])).
      { intros H. apply Hg in H. discriminate. }
      split; [split; [discriminate | tauto]|].
      split; [split; [discriminate | tauto]|].
      split; [intros [e H]; discriminate | tauto].
Qed.

(** X25.  The default model name is used only when [GEMINI_MODEL] is not
    set: when start-up succeeds, the model name is empty exactly when the
    variable is set to white space only. *)
Theorem load_config_model_empty_iff (env : str -> option str) (cfg : config) :
  load_config env = Ok cfg ->
  (GEMINI_MODEL cfg = []
   <-> exists v, env (lit "GEMINI_MODEL") = Some v
                 /\ Forall (fun c => isspace c = true) v).
Proof.
  unfold load_config.
  destruct (negb (truthy (strip (getenv env (lit "DISCORD_TOKEN") []))));
    [discriminate|].
  destruct (negb (truthy (strip (getenv env (lit "GEMINI_API_KEY") []))));
    [discriminate|].
  intros E. injection E as <-. cbn [GEMINI_MODEL].
  rewrite strip_nil_iff. unfold getenv.
  destruct (env (lit "GEMINI_MODEL")) as [v|].
  - split; [eauto|]. intros (v' & E & H). congruence.
  - split.
    + intros H. exfalso. inversion H as [|? ? Hc _]. discriminate Hc.
    + intros (v' & E & _). discriminate.
Qed.

Lemma load_config_model_empty_iff_witness :
  load_config sample_env
  = Ok {| DISCORD_TOKEN := lit "abc"; GEMINI_API_KEY := lit "xyz";
          GEMINI_MODEL := [] |}
  /\ exists v, sample_env (lit "GEMINI_MODEL") = Some v
               /\ Forall (fun c => isspace c = true) v.
Proof.
  assert (E : load_config sample_env
              = Ok {| DISCORD_TOKEN := lit "abc"; GEMINI_API_KEY := lit "xyz";
                      GEMINI_MODEL := [] |}) by reflexivity.
  split; [exact E|].
  apply (load_config_model_empty_iff sample_env _ E). reflexivity.
Defined.
